(** * observable: an event system for Python

    Shallow embedding of [src/observable/core.py] (class [Observable] and
    its two exceptions) and the properties of its registry, of handler
    removal and of event dispatch.

    The registry [self._events] is a [defaultdict(list)] from event names
    to lists of callables; it is a [gmap string (list hid)].  Callables
    are Python objects compared by identity: a handler is named by its
    address [hid] in a store of function objects, which [once] extends
    with a fresh [_wrapper] closure on every call. *)

From stdpp Require Import gmap strings list fin_maps.
From Stdlib Require Import ZArith.

Set Default Proof Using "Type".
#[local] Set Warnings "-register-all".

(** ** Values, exceptions, callables *)

(** Arguments passed to [trigger]: [*args] is a [list pyval], [**kw] an
    association list.  A tuple is a value of its own, so that a tuple
    passed as ONE argument differs from its items passed one by one. *)
Inductive pyval :=
  | PInt (z : Z)
  | PStr (s : string)
  | PTuple (items : list pyval).

Definition hid := nat.
Definition kwargs := list (string * pyval).

Inductive exn :=
  | EventNotFound (event : string)                   (* core.py l.22 *)
  | HandlerNotFound (event : string) (handler : hid) (* core.py l.10 *)
  | SyntaxError (msg : string)                       (* raised at l.133 *)
  | IndexError                                       (* handlers[0], l.68 *)
  | TypeError                                        (* calling a non-callable;
                                                        create_task on a future *)
  | RuntimeError                                     (* get_running_loop, no loop *)
  | UserError (tag : nat).                           (* raised by a handler *)

(** What a handler does when it runs: a straight-line script over the
    public interface of the observable it was registered on. *)
Inductive cmd :=
  | COn (event : string) (handlers : list hid)
      (* obs.on(event, *handlers) *)
  | COff (event : option string) (handlers : list hid)
      (* obs.off(event, *handlers); [None] is the default event=None *)
  | COnce (event : string) (handlers : list hid)
      (* obs.once(event, *handlers) *)
  | CTrigger (event : string) (args : list pyval) (kw : kwargs)
      (* obs.trigger(event, *args, **kw) *)
  | CTriggerAsync (event : string) (args : list pyval) (kw : kwargs)
      (* await obs.trigger_async(event, *args, **kw) *)
  | CRaise (e : exn)
      (* raise e *)
  | CReturnUnless (event : string) (handler : hid).
      (* if not obs.is_registered(event, handler): return *)

Inductive callable :=
  | Plain (body : list cmd)       (* def f( *args, **kw): body *)
  | Coroutine (body : list cmd)   (* async def f( *args, **kw): body *)
  | OnceWrapper (event : string) (handlers : list hid).
      (* the closure _wrapper of once, l.108-114, with the [event] and
         [handlers] it captured *)

Inductive retval :=
  | RNone
  | RBool (b : bool)
  | RHandler (h : hid)           (* on / once return handlers[0] *)
  | ROnWrapper (event : string)  (* on(event) returns _on_wrapper *)
  | ROnceLambda (event : string) (* once(event) returns the lambda of l.120 *)
  | RCoroutineObject (h : hid).  (* calling an async def without awaiting *)

(** Every call made to a handler is recorded, with the nesting depth of
    the call site: a [trigger] running at depth [d] records its dispatches
    at depth [d], and whatever the dispatched handler does is deeper. *)
Inductive tevent :=
  | Call (depth : nat) (callback : hid) (args : list pyval) (kw : kwargs)
      (* callback( *args, **kw), l.137 and l.152 *)
  | Await (depth : nat) (callback : hid) (args : list pyval) (kw : kwargs)
      (* await callback( *args, **kw), l.150 *)
  | Submit (depth : nat) (callback : hid) (executor_args : list pyval)
      (* run_in_executor(None, callback, ...) wrapped in a task, l.135:
         the executor will call callback( *executor_args) *)
  | Wrapped (depth : nat) (wrapper handler : hid) (args : list pyval) (kw : kwargs).
      (* handler( *args, **kw) inside _wrapper, l.114 *)

Definition depth_of (ev : tevent) : nat :=
  match ev with
  | Call d _ _ _ | Await d _ _ _ | Submit d _ _ | Wrapped d _ _ _ _ => d
  end.

Inductive outcome :=
  | Ret (v : retval)
  | Raise (e : exn)
  | OutOfFuel.

(** ** The state *)

Record world := World {
  _events : gmap string (list hid);   (* Observable._events *)
  functions : list callable;          (* function objects, by address *)
  trace : list tevent;                (* calls made so far, oldest first *)
  loop_running : bool                 (* is an asyncio event loop running
                                         in the calling thread *)
}.

Definition set_events (m : gmap string (list hid)) (σ : world) : world :=
  World m (functions σ) (trace σ) (loop_running σ).

Definition record (ev : tevent) (σ : world) : world :=
  World (_events σ) (functions σ) (trace σ ++ [ev]) (loop_running σ).

Definition new_function (c : callable) (σ : world) : world * hid :=
  (World (_events σ) (functions σ ++ [c]) (trace σ) (loop_running σ),
   length (functions σ)).

(** A new observable, in a program that runs no event loop. *)
Definition Observable : world := World ∅ [] [] false.

(** The same state, seen from code that an event loop is running. *)
Definition in_loop (σ : world) : world :=
  World (_events σ) (functions σ) (trace σ) true.

(** ** Introspection (l.39-57) *)

Definition get_all_handlers (σ : world) : gmap string (list hid) :=
  _events σ.

(** [self._events.get(event, [])]: no key is created. *)
Definition get_handlers (σ : world) (event : string) : list hid :=
  default [] (_events σ !! event).

Definition is_registered (σ : world) (event : string) (handler : hid) : bool :=
  bool_decide (handler ∈ get_handlers σ event).

(** ** Registration (l.59-72) *)

(** [self._events[event]] on a [defaultdict(list)]: a missing key is
    created with a fresh empty list. *)
Definition getitem (m : gmap string (list hid)) (event : string)
  : gmap string (list hid) * list hid :=
  match m !! event with
  | Some l => (m, l)
  | None => (<[event := []]> m, [])
  end.

(** [self._events[event].extend(handlers); return handlers[0]] *)
Definition _on_wrapper (event : string) (handlers : list hid) (σ : world)
  : world * outcome :=
  let '(m, l) := getitem (_events σ) event in
  let σ' := set_events (<[event := l ++ handlers]> m) σ in
  match handlers with
  | [] => (σ', Raise IndexError)
  | h :: _ => (σ', Ret (RHandler h))
  end.

Definition on (event : string) (handlers : list hid) (σ : world)
  : world * outcome :=
  match handlers with
  | [] => (σ, Ret (ROnWrapper event))
  | _ :: _ => _on_wrapper event handlers σ
  end.

(** ** Removal (l.74-98) *)

(** [not event] for [event : str = None]. *)
Definition falsy (event : option string) : bool :=
  match event with
  | None => true
  | Some s => bool_decide (s = "")
  end.

(** [list.remove(x)]: drops the first occurrence. *)
Fixpoint remove (x : hid) (l : list hid) : list hid :=
  match l with
  | [] => []
  | y :: l' => if decide (x = y) then l' else y :: remove x l'
  end.

(** [while callback in l: l.remove(callback)]; every turn shortens [l],
    so [length l] turns are enough. *)
Fixpoint remove_while (turns : nat) (callback : hid) (l : list hid) : list hid :=
  match turns with
  | 0 => l
  | S n => if bool_decide (callback ∈ l)
           then remove_while n callback (remove callback l)
           else l
  end.

(** The loop of l.93-97 over the handlers given. *)
Fixpoint off_handlers (event : string) (handlers : list hid) (σ : world)
  : world * outcome :=
  match handlers with
  | [] => (σ, Ret RNone)
  | callback :: rest =>
      let '(m, l) := getitem (_events σ) event in
      if bool_decide (callback ∈ l)
      then off_handlers event rest
             (set_events (<[event := remove_while (length l) callback l]> m) σ)
      else (set_events m σ, Raise (HandlerNotFound event callback))
  end.

Definition off (event : option string) (handlers : list hid) (σ : world)
  : world * outcome :=
  if falsy event then (set_events ∅ σ, Ret RNone)
  else
    let e := default "" event in
    match _events σ !! e with
    | None => (σ, Raise (EventNotFound e))
    | Some _ =>
        match handlers with
        | [] => (set_events (delete e (_events σ)) σ, Ret RNone)
        | _ :: _ => off_handlers e handlers σ
        end
    end.

(** ** One-shot registration (l.100-120) *)

(** [_once_wrapper( *handlers)] builds a new function object. *)
Definition _once_wrapper (event : string) (handlers : list hid) (σ : world)
  : world * hid :=
  new_function (OnceWrapper event handlers) σ.

Definition once (event : string) (handlers : list hid) (σ : world)
  : world * outcome :=
  match handlers with
  | [] => (σ, Ret (ROnceLambda event))
  | _ :: _ =>
      let '(σ1, w) := _once_wrapper event handlers σ in
      on event [w] σ1
  end.

(** ** Dispatch (l.122-153) *)

(** [asyncio.iscoroutinefunction(callback)] *)
Definition iscoroutinefunction (σ : world) (callback : hid) : bool :=
  match functions σ !! callback with
  | Some (Coroutine _) => true
  | _ => false
  end.

Definition named_args_msg : string :=
  "named args are not supported by asyncio in synchronous mode".

Section Dispatch.
(** [call d aw h args kw]: what calling the callable [h] does, at
    nesting depth [d]; [aw] is set when the call is awaited, which
    [trigger_async] does for coroutine functions only. *)
Variable call : nat → bool → hid → list pyval → kwargs → world → world * outcome.

(** The loop of [trigger] over its snapshot, l.130-138.  L.135 is
    [create_task(get_running_loop().run_in_executor(None, callback, args))]:
    [get_running_loop()] raises [RuntimeError] when no loop is running;
    otherwise [run_in_executor] hands the callable to the executor, with
    the tuple [args] as its only argument, and returns a future, which
    [create_task] refuses with [TypeError], as it is not a coroutine.
    Either way the call of [trigger] ends there. *)
Fixpoint trigger_callbacks (d : nat) (callbacks : list hid)
    (args : list pyval) (kw : kwargs) (σ : world) : world * outcome :=
  match callbacks with
  | [] => (σ, Ret (RBool true))
  | callback :: rest =>
      if iscoroutinefunction σ callback then
        if bool_decide (0 < length kw)
        then (σ, Raise (SyntaxError named_args_msg))
        else if loop_running σ
        then (record (Submit d callback [PTuple args]) σ, Raise TypeError)
        else (σ, Raise RuntimeError)
      else
        match call (S d) false callback args kw
                (record (Call d callback args kw) σ) with
        | (σ', Ret _) => trigger_callbacks d rest args kw σ'
        | (σ', out) => (σ', out)
        end
  end.

Definition trigger (d : nat) (event : string) (args : list pyval)
    (kw : kwargs) (σ : world) : world * outcome :=
  match get_handlers σ event with
  | [] => (σ, Ret (RBool false))
  | callbacks => trigger_callbacks d callbacks args kw σ
  end.

(** The loop of [trigger_async], l.148-153. *)
Fixpoint trigger_async_callbacks (d : nat) (callbacks : list hid)
    (args : list pyval) (kw : kwargs) (σ : world) : world * outcome :=
  match callbacks with
  | [] => (σ, Ret (RBool true))
  | callback :: rest =>
      let step :=
        if iscoroutinefunction σ callback
        then call (S d) true callback args kw
               (record (Await d callback args kw) σ)
        else call (S d) false callback args kw
               (record (Call d callback args kw) σ) in
      match step with
      | (σ', Ret _) => trigger_async_callbacks d rest args kw σ'
      | (σ', out) => (σ', out)
      end
  end.

Definition trigger_async (d : nat) (event : string) (args : list pyval)
    (kw : kwargs) (σ : world) : world * outcome :=
  match get_handlers σ event with
  | [] => (σ, Ret (RBool false))
  | callbacks => trigger_async_callbacks d callbacks args kw σ
  end.

(** One statement of a handler body that is a call on the observable. *)
Definition run_cmd (d : nat) (c : cmd) (σ : world) : world * outcome :=
  match c with
  | COn event handlers => on event handlers σ
  | COff event handlers => off event handlers σ
  | COnce event handlers => once event handlers σ
  | CTrigger event args kw => trigger d event args kw σ
  | CTriggerAsync event args kw => trigger_async d event args kw σ
  | CRaise e => (σ, Raise e)
  | CReturnUnless _ _ => (σ, Ret RNone)
  end.

Fixpoint run_script (d : nat) (body : list cmd) (σ : world) : world * outcome :=
  match body with
  | [] => (σ, Ret RNone)
  | CReturnUnless event handler :: rest =>
      if is_registered σ event handler then run_script d rest σ
      else (σ, Ret RNone)
  | c :: rest =>
      match run_cmd d c σ with
      | (σ', Ret _) => run_script d rest σ'
      | (σ', out) => (σ', out)
      end
  end.

(** [for handler in handlers: handler( *args, **kw)] in [_wrapper], l.113-114. *)
Fixpoint wrapped_handlers (d : nat) (w : hid) (handlers : list hid)
    (args : list pyval) (kw : kwargs) (σ : world) : world * outcome :=
  match handlers with
  | [] => (σ, Ret RNone)
  | handler :: rest =>
      match call (S d) false handler args kw
              (record (Wrapped d w handler args kw) σ) with
      | (σ', Ret _) => wrapped_handlers d w rest args kw σ'
      | (σ', out) => (σ', out)
      end
  end.
End Dispatch.

(** Calling a function object.  Handlers may trigger events from inside
    handlers without bound, so the call depth is limited by [fuel]. *)
Fixpoint call (fuel : nat) (d : nat) (aw : bool) (h : hid)
    (args : list pyval) (kw : kwargs) (σ : world) : world * outcome :=
  match fuel with
  | 0 => (σ, OutOfFuel)
  | S n =>
      match functions σ !! h with
      | None => (σ, Raise TypeError)
      | Some (Plain body) => run_script (call n) d body σ
      | Some (Coroutine body) =>
          if aw then run_script (call n) d body σ
          else (σ, Ret (RCoroutineObject h))
      | Some (OnceWrapper event handlers) =>
          (* self.off(event, _wrapper), then the wrapped handlers *)
          match off (Some event) [h] σ with
          | (σ1, Ret _) => wrapped_handlers (call n) d h handlers args kw σ1
          | (σ1, out) => (σ1, out)
          end
      end
  end.

(** A program using the observable from the top level. *)
Definition run (fuel : nat) (prog : list cmd) (σ : world) : world * outcome :=
  run_script (call fuel) 0 prog σ.

Definition with_functions (fs : list callable) : world := World ∅ fs [] false.

(** ** Reading the trace *)

(** What was recorded between two states. *)
Definition since (σ σ' : world) : list tevent :=
  drop (length (trace σ)) (trace σ').

(** The calls made at nesting depth [d] between two states. *)
Definition dispatched (d : nat) (σ σ' : world) : list tevent :=
  filter (λ ev, depth_of ev = d) (since σ σ').

Definition is_ret (out : outcome) : bool :=
  match out with Ret _ => true | _ => false end.

Definition is_once_wrapper (c : callable) : Prop :=
  match c with OnceWrapper _ _ => True | _ => False end.

(** [σ'] comes after [σ] in a run whose calls are nested [d] deep or
    deeper: function objects are only added, all of them closures of
    [once], and the trace is only extended, with events of depth [d] or
    more. *)
Definition later (d : nat) (σ σ' : world) : Prop :=
  (∃ ws, functions σ' = functions σ ++ ws ∧ Forall is_once_wrapper ws) ∧
  (∃ new, trace σ' = trace σ ++ new ∧ Forall (λ ev, d ≤ depth_of ev) new).

(** Following the spec (4.1 and 5): a trigger goes through a list of
    handlers fixed beforehand, one handler after the other, each on the
    state that the one before left, and stops at the first that does not
    return. *)
Fixpoint one_by_one (dispatch : hid → world → world * outcome)
    (snapshot : list hid) (σ : world) : world * outcome :=
  match snapshot with
  | [] => (σ, Ret (RBool true))
  | h :: rest =>
      match dispatch h σ with
      | (σ', Ret _) => one_by_one dispatch rest σ'
      | (σ', out) => (σ', out)
      end
  end.

(** What [trigger] does with one handler (l.131-137), and what
    [trigger_async] does (l.149-152), given how callables are called. *)
Definition dispatch_sync
    (callf : nat → bool → hid → list pyval → kwargs → world → world * outcome)
    (d : nat) (args : list pyval) (kw : kwargs) (h : hid) (σ : world)
  : world * outcome :=
  if iscoroutinefunction σ h then
    if bool_decide (0 < length kw) then (σ, Raise (SyntaxError named_args_msg))
    else if loop_running σ
    then (record (Submit d h [PTuple args]) σ, Raise TypeError)
    else (σ, Raise RuntimeError)
  else callf (S d) false h args kw (record (Call d h args kw) σ).

Definition dispatch_async
    (callf : nat → bool → hid → list pyval → kwargs → world → world * outcome)
    (d : nat) (args : list pyval) (kw : kwargs) (h : hid) (σ : world)
  : world * outcome :=
  if iscoroutinefunction σ h
  then callf (S d) true h args kw (record (Await d h args kw) σ)
  else callf (S d) false h args kw (record (Call d h args kw) σ).

(** What [trigger] records when it dispatches [callback] (l.131-137),
    and what [trigger_async] records (l.149-152). *)
Definition sync_record (d : nat) (σ : world) (args : list pyval) (kw : kwargs)
    (callback : hid) : tevent :=
  if iscoroutinefunction σ callback then Submit d callback [PTuple args]
  else Call d callback args kw.

Definition async_record (d : nat) (σ : world) (args : list pyval) (kw : kwargs)
    (callback : hid) : tevent :=
  if iscoroutinefunction σ callback then Await d callback args kw
  else Call d callback args kw.

(** A trace made of dispatches, each followed by what the dispatched
    handler did before the next dispatch. *)
Fixpoint sequence_of (records : list tevent) (segments : list (list tevent))
  : list tevent :=
  match records, segments with
  | r :: records', s :: segments' => r :: s ++ sequence_of records' segments'
  | _, _ => []
  end.

(** The size of a value, to tell a tuple from its items. *)
Fixpoint pysize (v : pyval) : nat :=
  match v with
  | PTuple items => S (foldr (λ x n, pysize x + n) 0 items)
  | _ => 1
  end.

(** Handlers that only register: their body calls [on] and [once], and
    may return early on [is_registered]; nothing in it raises, removes
    or triggers. *)
Definition registers_only (c : cmd) : Prop :=
  match c with
  | COn _ _ | COnce _ _ | CReturnUnless _ _ => True
  | _ => False
  end.

Definition quiet (σ : world) (h : hid) : Prop :=
  ∃ body,
    (functions σ !! h = Some (Plain body) ∨ functions σ !! h = Some (Coroutine body)) ∧
    Forall registers_only body.

(** The dispatches recorded at depth [d] between [σ] and [σ'] are those
    of the handlers of [snapshot], in its order, as far as the call got:
    to the end when it returned. *)
Definition dispatched_from (rec : hid → tevent) (snapshot : list hid)
    (d : nat) (σ σ' : world) (out : outcome) : Prop :=
  ∃ done,
    done `prefix_of` snapshot ∧
    dispatched d σ σ' = map rec done ∧
    (is_ret out = true → done = snapshot).

(** The handlers that the wrapper [w] of a [once] has called, in the
    order of the calls. *)
Fixpoint calls_by (w : hid) (t : list tevent) : list hid :=
  match t with
  | [] => []
  | Wrapped _ w' h _ _ :: t' =>
      if decide (w' = w) then h :: calls_by w t' else calls_by w t'
  | _ :: t' => calls_by w t'
  end.

(** A statement that does not hand [w] to [on]. *)
Definition no_on (w : hid) (c : cmd) : Prop :=
  match c with
  | COn _ handlers => w ∉ handlers
  | _ => True
  end.

(** No function of the store hands [w] to [on]. *)
Definition never_registers (w : hid) (σ : world) : Prop :=
  ∀ h body,
    functions σ !! h = Some (Plain body) ∨ functions σ !! h = Some (Coroutine body) →
    Forall (no_on w) body.

(** The wrapper [w] of [once(e, hs)] is in the store, and no function
    registers it again. *)
Definition wrapper_in (w : hid) (e : string) (hs : list hid) (σ : world) : Prop :=
  functions σ !! w = Some (OnceWrapper e hs) ∧ never_registers w σ.

(** The wrapper is not registered for its event and has made the calls [c]. *)
Definition spent (w : hid) (e : string) (hs c : list hid) (σ : world) : Prop :=
  wrapper_in w e hs σ ∧ (w ∉ get_handlers σ e) ∧ calls_by w (trace σ) = c.

(** Either the wrapper has called nothing yet, or it is unregistered and
    went through its handlers at most once. *)
Definition at_most_once (w : hid) (e : string) (hs : list hid) (σ : world) : Prop :=
  wrapper_in w e hs σ ∧
  (calls_by w (trace σ) = [] ∨
   ((w ∉ get_handlers σ e) ∧ calls_by w (trace σ) `prefix_of` hs)).

(** A step that keeps the wrapper in the store, records nothing and does
    not register the wrapper for its event. *)
Definition harmless (w : hid) (e : string) (hs : list hid) (σ σ' : world) : Prop :=
  wrapper_in w e hs σ →
  wrapper_in w e hs σ' ∧ trace σ' = trace σ ∧
  (w ∈ get_handlers σ' e → w ∈ get_handlers σ e).

(** The loop of [get_all_handlers], l.43-46: a new dict that receives a
    copy of the list of every event of the registry. *)
Definition get_all_handlers_items (σ : world) : gmap string (list hid) :=
  map_fold (λ event handlers events, <[event := handlers]> events) ∅ (_events σ).

(** ** The registry invariant under discussion *)

(** Every event that is a key of the registry has at least one handler. *)
Definition nonempty_lists (σ : world) : Prop :=
  ∀ event l, _events σ !! event = Some l → l ≠ [].

(** ** Sample states *)

(** An observable on which a handler was registered and then
    unregistered: [obs.on("e", h); obs.off("e", h)] with [h] at address 0. *)
Definition emptied : world :=
  (off (Some "e") [0] (on "e" [0] (with_functions [Plain []])).1).1.

(** A coroutine function listening on ["e"]:
    [async def h(...)] at address 0, [obs.on("e", h)]. *)
Definition async_listener : world :=
  (on "e" [0] (with_functions [Coroutine []])).1.

(** An ordinary handler registered ahead of a coroutine function. *)
Definition plain_then_async : world :=
  (on "e" [0; 1] (with_functions [Plain []; Coroutine []])).1.

(** The same, the ordinary handler calling [obs.off("e", g)] for a [g]
    (address 9) that is not registered. *)
Definition failing_then_async : world :=
  (on "e" [0; 1] (with_functions [Plain [COff (Some "e") [9]]; Coroutine []])).1.

(** A handler of ["e"] that registers another handler for ["e"]. *)
Definition self_extending : world :=
  (on "e" [0] (with_functions [Plain [COn "e" [1]]; Plain []])).1.

(** Two coroutine functions around an ordinary handler. *)
Definition interleaved : world :=
  (on "e" [0; 1; 2] (with_functions [Coroutine []; Plain []; Coroutine []])).1.

(** Two coroutine functions around an ordinary handler, each of which
    registers a handler of its own for ["f"]: [obs.on("f", g10)],
    [obs.on("f", g11)], [obs.on("f", g12)]. *)
Definition marking : world :=
  (on "e" [0; 1; 2]
     (with_functions [Coroutine [COn "f" [10]]; Plain [COn "f" [11]];
                      Coroutine [COn "f" [12]]])).1.

(** A handler [h] (address 0), a handler [f] (address 1) used as a flag
    on the event ["flag"], and a handler [a] (address 2) that, the first
    time it runs, drops the flag and triggers the empty event name:
    [if not obs.is_registered("flag", f): return]
    [obs.off("flag"); obs.trigger("")]. *)
Definition retriggering : list callable :=
  [ Plain [];
    Plain [];
    Plain [CReturnUnless "flag" 1; COff (Some "flag") []; CTrigger "" [] []] ].

(** [obs.on("flag", f); obs.on("", a)] on a new observable. *)
Definition before_once : world :=
  (run 0 [COn "flag" [1]; COn "" [2]] (with_functions retriggering)).1.

(** * Properties *)

(** ** Lists of handlers *)

Lemma set_events_same σ : set_events (_events σ) σ = σ.
Proof. by destruct σ. Qed.

Lemma remove_shorter x l : x ∈ l → S (length (remove x l)) = length l.
Proof.
  induction l as [|y l IH]; simpl; [by intros ?%elem_of_nil|].
  intros Hin. destruct (decide (x = y)) as [->|Hne]; [done|].
  simpl. f_equal. apply IH. by apply elem_of_cons in Hin as [?|?].
Qed.

Lemma filter_remove x l : filter (.≠ x) (remove x l) = filter (.≠ x) l.
Proof.
  induction l as [|y l IH]; simpl; [done|].
  destruct (decide (x = y)) as [->|Hne].
  - by rewrite filter_cons_False by (intros ?; congruence).
  - by rewrite !filter_cons_True, IH by congruence.
Qed.

Lemma filter_absent x (l : list hid) : x ∉ l → filter (.≠ x) l = l.
Proof.
  induction l as [|y l IH]; [done|].
  intros Hnin. apply not_elem_of_cons in Hnin as [Hne Hnin].
  rewrite filter_cons_True by congruence. by rewrite IH.
Qed.

(** The [while] loop of l.96-97 removes every occurrence and keeps the
    other handlers in their order. *)
Lemma remove_while_filter n x l :
  length l ≤ n → remove_while n x l = filter (.≠ x) l.
Proof.
  revert l. induction n as [|n IH]; intros l Hlen; simpl.
  - by destruct l; [|simpl in Hlen; lia].
  - case_bool_decide as Hin.
    + rewrite IH, filter_remove; [done|].
      apply remove_shorter in Hin. lia.
    + by rewrite filter_absent.
Qed.

Lemma is_registered_nil σ event h :
  get_handlers σ event = [] → is_registered σ event h = false.
Proof.
  unfold is_registered. intros ->. apply bool_decide_eq_false, not_elem_of_nil.
Qed.

Lemma getitem_present m event l :
  m !! event = Some l → getitem m event = (m, l).
Proof. unfold getitem. by intros ->. Qed.

Lemma off_handlers_present event callback rest σ l :
  _events σ !! event = Some l → callback ∈ l →
  off_handlers event (callback :: rest) σ =
  off_handlers event rest
    (set_events (<[event := filter (.≠ callback) l]> (_events σ)) σ).
Proof.
  intros Hl Hin. simpl. rewrite (getitem_present _ _ _ Hl).
  rewrite bool_decide_true by done. by rewrite remove_while_filter.
Qed.

Lemma off_handlers_absent event callback rest σ l :
  _events σ !! event = Some l → callback ∉ l →
  off_handlers event (callback :: rest) σ =
  (σ, Raise (HandlerNotFound event callback)).
Proof.
  intros Hl Hin. simpl. rewrite (getitem_present _ _ _ Hl).
  rewrite bool_decide_false by done. by rewrite set_events_same.
Qed.

Lemma off_named event handlers σ :
  event ≠ "" →
  off (Some event) handlers σ =
  match _events σ !! event with
  | None => (σ, Raise (EventNotFound event))
  | Some _ =>
      match handlers with
      | [] => (set_events (delete event (_events σ)) σ, Ret RNone)
      | _ :: _ => off_handlers event handlers σ
      end
  end.
Proof. intros Hne. unfold off. simpl. by rewrite bool_decide_false. Qed.

Lemma off_handlers_prefix event σ l pre hk post :
  _events σ !! event = Some l →
  NoDup pre → (∀ h, h ∈ pre → h ∈ l) → hk ∉ l ∨ hk ∈ pre →
  off_handlers event (pre ++ hk :: post) σ =
  (set_events (<[event := filter (λ x, x ∉ pre) l]> (_events σ)) σ,
   Raise (HandlerNotFound event hk)).
Proof.
  revert σ l. induction pre as [|h pre IH]; intros σ l Hl Hnd Hsub Hk.
  - destruct Hk as [Hk|Hk]; [|by apply elem_of_nil in Hk].
    simpl app. rewrite (off_handlers_absent _ _ _ _ l) by done.
    f_equal. rewrite <- (set_events_same σ) at 1. f_equal.
    symmetry. apply insert_id. rewrite Hl. f_equal.
    symmetry. clear. induction l as [|y l IHl]; [done|].
    rewrite filter_cons_True by apply not_elem_of_nil. by rewrite IHl.
  - apply NoDup_cons in Hnd as [Hh Hnd].
    simpl app. rewrite (off_handlers_present _ _ _ _ l) by (auto; apply Hsub; left).
    rewrite (IH _ (filter (.≠ h) l)); simpl.
    + f_equal. unfold set_events. simpl. f_equal.
      rewrite insert_insert_eq. f_equal.
      clear. induction l as [|y l IHl]; [done|].
      destruct (decide (y = h)) as [->|Hne].
      * rewrite (filter_cons_False _ h) by (intros Hx; by apply Hx).
        rewrite (filter_cons_False _ h) by (intros Hx; apply Hx; left). done.
      * rewrite (filter_cons_True (.≠ h)) by done.
        destruct (decide (y ∈ pre)) as [Hy|Hy].
        -- rewrite !filter_cons_False; [done| |]; intros Hx; apply Hx; [by right|done].
        -- rewrite !filter_cons_True; [by rewrite IHl| |done].
           intros [?|?]%elem_of_cons; done.
    + apply lookup_insert_eq.
    + done.
    + intros x Hx. apply list_elem_of_filter. split.
      * intros ->. done.
      * apply Hsub. by right.
    + destruct Hk as [Hk|Hk].
      * left. intros [_ ?]%list_elem_of_filter. done.
      * apply elem_of_cons in Hk as [->|Hk]; [|by right].
        left. intros [? _]%list_elem_of_filter. done.
Qed.

Lemma off_one_registered σ e h :
  e ≠ "" → h ∈ get_handlers σ e →
  ∃ σ', off (Some e) [h] σ = (σ', Ret RNone) ∧ (h ∉ get_handlers σ' e) ∧
        _events σ' = <[e := filter (.≠ h) (get_handlers σ e)]> (_events σ).
Proof.
  intros He. unfold get_handlers. intros Hin.
  destruct (_events σ !! e) as [l|] eqn:Hl; [|by apply elem_of_nil in Hin].
  simpl in Hin. eexists. split; [|split].
  - rewrite off_named, Hl by done. by rewrite (off_handlers_present _ _ _ _ l).
  - simpl. rewrite lookup_insert_eq. simpl. intros [? _]%list_elem_of_filter. done.
  - done.
Qed.

(** ** Unregistering handlers *)

(** C9: if [h] is registered for [e], however many times, [off(e, h)]
    returns normally having removed every occurrence of [h] from the
    sequence of [e]: [is_registered(e, h)] is false right afterwards.
    For a non-empty name the other handlers of [e] keep their places and
    the other events are untouched. *)
Theorem off_removes_every_occurrence σ e h :
  is_registered σ e h = true →
  ∃ σ', off (Some e) [h] σ = (σ', Ret RNone) ∧
        is_registered σ' e h = false ∧
        (e ≠ "" →
         _events σ' !! e = Some (filter (.≠ h) (get_handlers σ e)) ∧
         ∀ e', e' ≠ e → _events σ' !! e' = _events σ !! e').
Proof.
  unfold is_registered, get_handlers. intros Hreg%bool_decide_eq_true.
  destruct (decide (e = "")) as [->|Hne].
  - eexists. split; [done|]. split; [|done].
    apply is_registered_nil. unfold get_handlers. simpl. by rewrite lookup_empty.
  - destruct (_events σ !! e) as [l|] eqn:Hl; [|by apply elem_of_nil in Hreg].
    simpl in Hreg. eexists. split; [|split].
    + rewrite off_named, Hl by done.
      by rewrite (off_handlers_present _ _ _ _ l).
    + simpl. rewrite lookup_insert_eq. simpl.
      apply bool_decide_eq_false. intros [? _]%list_elem_of_filter. done.
    + intros _. simpl. rewrite lookup_insert_eq. split; [done|].
      intros e' He'. by rewrite lookup_insert_ne.
Qed.

Lemma off_removes_every_occurrence_witness :
  ∃ σ', off (Some "e") [0] (on "e" [0; 1; 0] (with_functions [Plain []; Plain []])).1
        = (σ', Ret RNone) ∧
        is_registered σ' "e" 0 = false ∧
        ("e" ≠ "" →
         _events σ' !! "e" = Some (filter (.≠ 0)
           (get_handlers (on "e" [0; 1; 0] (with_functions [Plain []; Plain []])).1 "e")) ∧
         ∀ e', e' ≠ "e" → _events σ' !! e' =
           _events (on "e" [0; 1; 0] (with_functions [Plain []; Plain []])).1 !! e').
Proof.
  apply (off_removes_every_occurrence
           (on "e" [0; 1; 0] (with_functions [Plain []; Plain []])).1 "e" 0).
  vm_compute. reflexivity.
Defined.

(** C10: [off("")] is [off()]: with the empty string as the event name,
    and whatever handlers follow it, the whole registry is cleared and the
    call returns normally; [EventNotFound] is never raised, although [""]
    was never registered and other events have handlers. *)
Theorem off_empty_name_clears_all σ handlers :
  off (Some "") handlers σ = off None [] σ ∧
  off (Some "") handlers σ = (set_events ∅ σ, Ret RNone) ∧
  ∀ event h, is_registered (off (Some "") handlers σ).1 event h = false.
Proof.
  split; [done|]. split; [done|].
  intros event h. apply is_registered_nil.
  unfold get_handlers. simpl. by rewrite lookup_empty.
Qed.

(** C7: [off(e, h1, ..., hn)] takes the handlers one at a time in the
    order given.  When [h1 .. h(k-1)] are registered for [e] and [hk] is
    the first that is not (it was never there, or it is one of
    [h1 .. h(k-1)] and already gone), the call raises
    [HandlerNotFound(e, hk)] and the registry is left with [h1 .. h(k-1)]
    removed from [e]: nothing is rolled back. *)
Theorem off_applies_handlers_one_at_a_time σ e l pre hk post :
  e ≠ "" →
  _events σ !! e = Some l →
  NoDup pre → (∀ h, h ∈ pre → h ∈ l) →
  hk ∉ l ∨ hk ∈ pre →
  off (Some e) (pre ++ hk :: post) σ =
  (set_events (<[e := filter (λ x, x ∉ pre) l]> (_events σ)) σ,
   Raise (HandlerNotFound e hk)).
Proof.
  intros Hne Hl Hnd Hsub Hk. rewrite off_named, Hl by done.
  rewrite <- (off_handlers_prefix e σ l pre hk post) by done.
  by destruct pre.
Qed.

Lemma off_applies_handlers_one_at_a_time_witness :
  off (Some "e") ([0; 1] ++ 3 :: [2])
    (on "e" [0; 1; 2; 0] (with_functions [Plain []; Plain []; Plain []; Plain []])).1 =
  (World {["e" := [2]]} [Plain []; Plain []; Plain []; Plain []] [] false,
   Raise (HandlerNotFound "e" 3)).
Proof.
  rewrite (off_applies_handlers_one_at_a_time _ "e" [0; 1; 2; 0] [0; 1] 3 [2]).
  - vm_compute. reflexivity.
  - done.
  - vm_compute. reflexivity.
  - compute_done.
  - intros h [->|[->|[]%elem_of_nil]%elem_of_cons]%elem_of_cons; compute_done.
  - left. compute_done.
Defined.

(** ** Unregistering an event *)

(** C3, as stated, fails: after [obs.on("e", h); obs.off("e", h)] the
    event ["e"] has no registered handler, and [off("e")] does not raise
    [EventNotFound]: it returns normally. *)
Lemma off_event_without_handlers_returns :
  get_handlers emptied "e" = [] ∧
  (∀ h, is_registered emptied "e" h = false) ∧
  (off (Some "e") [] emptied).2 = Ret RNone ∧
  (off (Some "e") [] emptied).2 ≠ Raise (EventNotFound "e").
Proof.
  split; [by vm_compute|]. split; [|split; [by vm_compute|]].
  - intros h. apply is_registered_nil. by vm_compute.
  - replace (off (Some "e") [] emptied).2 with (Ret RNone) by (by vm_compute).
    discriminate.
Qed.

(** C3, amended: for a non-empty event name [e], [off(e)] raises
    [EventNotFound(e)], leaving the registry as it was, if and only if [e]
    is not a key of the registry; when [e] is a key, also one whose
    sequence is empty, the call returns normally and [e] is no longer a
    key, the other events being untouched. *)
Theorem off_event_raises_iff_not_a_key σ e :
  e ≠ "" →
  ((off (Some e) [] σ).2 = Raise (EventNotFound e) ↔ _events σ !! e = None) ∧
  (_events σ !! e = None → off (Some e) [] σ = (σ, Raise (EventNotFound e))) ∧
  (is_Some (_events σ !! e) →
   off (Some e) [] σ = (set_events (delete e (_events σ)) σ, Ret RNone) ∧
   _events (off (Some e) [] σ).1 !! e = None ∧
   get_handlers (off (Some e) [] σ).1 e = [] ∧
   ∀ e', e' ≠ e → _events (off (Some e) [] σ).1 !! e' = _events σ !! e').
Proof.
  intros Hne. rewrite off_named by done.
  destruct (_events σ !! e) as [l|] eqn:Hl; simpl.
  - split; [split; discriminate|]. split; [discriminate|].
    intros _. unfold get_handlers. simpl. rewrite lookup_delete_eq.
    repeat split; try done. intros e' He'. by rewrite lookup_delete_ne.
  - split; [done|]. split; [done|]. by intros [? ?].
Qed.

Lemma off_event_raises_iff_not_a_key_witness :
  ((off (Some "e") [] emptied).2 = Raise (EventNotFound "e")
     ↔ _events emptied !! "e" = None) ∧
  (off (Some "f") [] emptied).2 = Raise (EventNotFound "f").
Proof.
  split.
  - apply (off_event_raises_iff_not_a_key emptied "e"). done.
  - apply (off_event_raises_iff_not_a_key emptied "f"); [done|]. by vm_compute.
Defined.

(** ** Keys and empty sequences *)

Lemma off_handlers_keeps_keys event handlers σ :
  is_Some (_events σ !! event) →
  dom (_events (off_handlers event handlers σ).1) = dom (_events σ).
Proof.
  revert σ. induction handlers as [|h handlers IH]; intros σ [l Hl]; [done|].
  simpl. rewrite (getitem_present _ _ _ Hl). case_bool_decide.
  - rewrite IH; simpl.
    + rewrite dom_insert_L. apply subseteq_union_1_L, singleton_subseteq_l.
      by apply elem_of_dom_2 in Hl.
    + rewrite lookup_insert_eq. eauto.
  - done.
Qed.

Lemma on_lookup event handlers σ :
  handlers ≠ [] →
  _events (on event handlers σ).1 =
  <[event := get_handlers σ event ++ handlers]> (_events σ).
Proof.
  intros Hne. destruct handlers as [|h handlers]; [done|].
  unfold on, _on_wrapper, getitem, get_handlers.
  destruct (_events σ !! event) as [l|]; simpl; [done|].
  by rewrite insert_insert_eq.
Qed.

Lemma on_keeps_nonempty event handlers σ :
  nonempty_lists σ → handlers ≠ [] → nonempty_lists (on event handlers σ).1.
Proof.
  intros Hσ Hne e l. rewrite on_lookup by done.
  destruct (decide (event = e)) as [->|He].
  - rewrite lookup_insert_eq. intros [= <-] Happ.
    apply app_eq_nil in Happ as [_ ?]. done.
  - rewrite lookup_insert_ne by done. apply Hσ.
Qed.

(** C2, as stated, fails: [obs.on("e", h)] followed by [obs.off("e", h)]
    completes and leaves ["e"] a key of the registry, mapped to the empty
    list. *)
Lemma off_handler_leaves_empty_list :
  (off (Some "e") [0] (on "e" [0] (with_functions [Plain []])).1).2 = Ret RNone ∧
  _events emptied !! "e" = Some [] ∧
  ¬ nonempty_lists emptied.
Proof.
  split; [by vm_compute|]. split; [by vm_compute|].
  intros Hall. by apply (Hall "e" []); vm_compute.
Qed.

(** C2, amended: [on] and [once] with at least one handler, [off()] and
    [off(e)] without handlers leave every key of the registry with a
    non-empty sequence when that held before.  [off(e, h1, ..., hn)] on a
    non-empty name, which is also how the wrapper of [once] unregisters
    itself, never removes a key: the registry keeps the keys it had, and
    an event that loses its last handler that way stays a key, mapped to
    the empty sequence. *)
Theorem keys_after_mutation σ e handlers :
  nonempty_lists σ → handlers ≠ [] →
  nonempty_lists (on e handlers σ).1 ∧
  nonempty_lists (once e handlers σ).1 ∧
  nonempty_lists (off None [] σ).1 ∧
  nonempty_lists (off (Some e) [] σ).1 ∧
  (e ≠ "" →
   dom (_events (off (Some e) handlers σ).1) = dom (_events σ) ∧
   ∀ h n, _events σ !! e = Some (replicate (S n) h) →
          off (Some e) [h] σ = (set_events (<[e := []]> (_events σ)) σ, Ret RNone)).
Proof.
  intros Hσ Hne. split; [by apply on_keeps_nonempty|]. split; [|split; [|split]].
  - destruct handlers as [|h handlers]; [done|].
    unfold once, _once_wrapper, new_function.
    apply (on_keeps_nonempty e [length (functions σ)]
             (World (_events σ) (functions σ ++ [OnceWrapper e (h :: handlers)])
                (trace σ) (loop_running σ)));
      done.
  - intros e' l. simpl. by rewrite lookup_empty.
  - destruct (decide (e = "")) as [->|He].
    + intros e' l. simpl. by rewrite lookup_empty.
    + rewrite off_named by done. destruct (_events σ !! e) eqn:Hl; [|done].
      intros e' l'. simpl. destruct (decide (e = e')) as [->|He'].
      * by rewrite lookup_delete_eq.
      * rewrite lookup_delete_ne by done. apply Hσ.
  - intros He. split.
    + rewrite off_named by done. destruct (_events σ !! e) eqn:Hl; [|done].
      destruct handlers; [done|]. apply off_handlers_keeps_keys. eauto.
    + intros h n Hl. rewrite off_named, Hl by done.
      rewrite (off_handlers_present _ _ _ _ _ Hl) by (by left).
      simpl. do 3 f_equal.
      change (replicate (S n) h) with (h :: replicate n h).
      rewrite filter_cons_False by (intros Hx; by apply Hx).
      clear. induction n as [|n IH]; [done|]. simpl.
      by rewrite filter_cons_False by (intros Hx; by apply Hx).
Qed.

Lemma keys_after_mutation_witness :
  nonempty_lists (on "e" [0] (on "f" [0] (with_functions [Plain []])).1).1 ∧
  dom (_events (off (Some "f") [0] (on "f" [0] (with_functions [Plain []])).1).1)
  = dom (_events (on "f" [0] (with_functions [Plain []])).1).
Proof.
  assert (nonempty_lists (with_functions [Plain []])) as H0.
  { intros e l. simpl. by rewrite lookup_empty. }
  assert (nonempty_lists (on "f" [0] (with_functions [Plain []])).1) as H1.
  { apply (keys_after_mutation (with_functions [Plain []]) "f" [0]); done. }
  split.
  - apply (keys_after_mutation (on "f" [0] (with_functions [Plain []])).1 "e" [0]); done.
  - apply (keys_after_mutation (on "f" [0] (with_functions [Plain []])).1 "f" [0]); done.
Defined.

(** ** Invariants of a run *)

(** A property of states that the registry operations and the recording
    of dispatches preserve is preserved by everything built from them,
    once calling a function object preserves it. *)
Section Invariant.
Variable J : world → Prop.
Variable okd : nat → Prop.
Variable okc : cmd → Prop.
Hypothesis okd_S : ∀ d, okd d → okd (S d).
Hypothesis J_on : ∀ e hs σ, okc (COn e hs) → J σ → J (on e hs σ).1.
Hypothesis J_off : ∀ e hs σ, okc (COff e hs) → J σ → J (off e hs σ).1.
Hypothesis J_once : ∀ e hs σ, okc (COnce e hs) → J σ → J (once e hs σ).1.
Hypothesis J_call_record : ∀ d h args kw σ,
  okd d → J σ → J (record (Call d h args kw) σ).
Hypothesis J_await_record : ∀ d h args kw σ,
  okd d → J σ → J (record (Await d h args kw) σ).
Hypothesis J_submit_record : ∀ d h xs σ,
  okd d → J σ → J (record (Submit d h xs) σ).

Variable call : nat → bool → hid → list pyval → kwargs → world → world * outcome.
Hypothesis J_call : ∀ d aw h args kw σ,
  okd d → J σ → J (call d aw h args kw σ).1.

Lemma J_trigger_callbacks d callbacks args kw σ :
  okd d → J σ → J (trigger_callbacks call d callbacks args kw σ).1.
Proof using okd_S J_call_record J_submit_record J_call.
  intros Hd. revert σ. induction callbacks as [|cb rest IH]; intros σ Hσ; [done|].
  simpl. destruct (iscoroutinefunction σ cb).
  - case_bool_decide; [done|]. destruct (loop_running σ); [|done].
    by apply J_submit_record.
  - pose proof (J_call (S d) false cb args kw (record (Call d cb args kw) σ)
                  (okd_S _ Hd) (J_call_record _ _ _ _ _ Hd Hσ)) as Hc.
    destruct (call _ _ _ _ _ _) as [σ' [v|e|]]; simpl in *; auto.
Qed.

Lemma J_trigger d event args kw σ :
  okd d → J σ → J (trigger call d event args kw σ).1.
Proof using okd_S J_call_record J_submit_record J_call.
  intros Hd Hσ. unfold trigger. destruct (get_handlers σ event) eqn:E; [done|].
  by apply J_trigger_callbacks.
Qed.

Lemma J_trigger_async_callbacks d callbacks args kw σ :
  okd d → J σ → J (trigger_async_callbacks call d callbacks args kw σ).1.
Proof using okd_S J_call_record J_await_record J_call.
  intros Hd. revert σ. induction callbacks as [|cb rest IH]; intros σ Hσ; [done|].
  simpl. destruct (iscoroutinefunction σ cb).
  - pose proof (J_call (S d) true cb args kw (record (Await d cb args kw) σ)
                  (okd_S _ Hd) (J_await_record _ _ _ _ _ Hd Hσ)) as Hc.
    destruct (call _ _ _ _ _ _) as [σ' [v|e|]]; simpl in *; auto.
  - pose proof (J_call (S d) false cb args kw (record (Call d cb args kw) σ)
                  (okd_S _ Hd) (J_call_record _ _ _ _ _ Hd Hσ)) as Hc.
    destruct (call _ _ _ _ _ _) as [σ' [v|e|]]; simpl in *; auto.
Qed.

Lemma J_trigger_async d event args kw σ :
  okd d → J σ → J (trigger_async call d event args kw σ).1.
Proof using okd_S J_call_record J_await_record J_call.
  intros Hd Hσ. unfold trigger_async. destruct (get_handlers σ event) eqn:E; [done|].
  by apply J_trigger_async_callbacks.
Qed.

Lemma J_run_cmd d c σ :
  okd d → okc c → J σ → J (run_cmd call d c σ).1.
Proof using All.
  intros Hd Hc Hσ. destruct c; simpl; auto using J_trigger, J_trigger_async.
Qed.

Lemma J_run_script d body σ :
  okd d → Forall okc body → J σ → J (run_script call d body σ).1.
Proof using All.
  intros Hd Hall. revert σ. induction Hall as [|c rest Hc Hall IH]; intros σ Hσ; [done|].
  pose proof (J_run_cmd d c σ Hd Hc Hσ) as Hstep.
  destruct c; simpl in *;
    try (destruct (is_registered σ event handler); auto; fail);
    try done;
    match goal with
    | |- context [match ?x with _ => _ end] =>
        destruct x as [σ' [v|e'|]]; simpl in *; auto
    end.
Qed.

Lemma J_wrapped_handlers d w handlers args kw σ :
  okd d →
  (∀ h σ, J σ → J (record (Wrapped d w h args kw) σ)) →
  J σ → J (wrapped_handlers call d w handlers args kw σ).1.
Proof using okd_S J_call.
  intros Hd Hrec. revert σ. induction handlers as [|h rest IH]; intros σ Hσ; [done|].
  simpl.
  pose proof (J_call (S d) false h args kw (record (Wrapped d w h args kw) σ)
                (okd_S _ Hd) (Hrec _ _ Hσ)) as Hc.
  destruct (call _ _ _ _ _ _) as [σ' [v|e|]]; simpl in *; auto.
Qed.
End Invariant.

Section InvariantOfCall.
Variable J : world → Prop.
Variable okd : nat → Prop.
Variable okc : cmd → Prop.
Hypothesis okd_S : ∀ d, okd d → okd (S d).
Hypothesis J_on : ∀ e hs σ, okc (COn e hs) → J σ → J (on e hs σ).1.
Hypothesis J_off : ∀ e hs σ, okc (COff e hs) → J σ → J (off e hs σ).1.
Hypothesis J_once : ∀ e hs σ, okc (COnce e hs) → J σ → J (once e hs σ).1.
Hypothesis J_call_record : ∀ d h args kw σ,
  okd d → J σ → J (record (Call d h args kw) σ).
Hypothesis J_await_record : ∀ d h args kw σ,
  okd d → J σ → J (record (Await d h args kw) σ).
Hypothesis J_submit_record : ∀ d h xs σ,
  okd d → J σ → J (record (Submit d h xs) σ).
(** The scripts found in the store are well behaved. *)
Hypothesis J_body : ∀ σ h body,
  J σ →
  functions σ !! h = Some (Plain body) ∨ functions σ !! h = Some (Coroutine body) →
  Forall okc body.
(** The wrapper of [once] preserves the property when the calls it
    makes do. *)
Hypothesis J_wrapper : ∀ n,
  (∀ d aw h args kw σ, okd d → J σ → J (call n d aw h args kw σ).1) →
  ∀ d w e hs args kw σ,
    okd d → J σ → functions σ !! w = Some (OnceWrapper e hs) →
    J (match off (Some e) [w] σ with
       | (σ1, Ret _) => wrapped_handlers (call n) d w hs args kw σ1
       | (σ1, out) => (σ1, out)
       end).1.

Lemma J_call_fuel fuel d aw h args kw σ :
  okd d → J σ → J (call fuel d aw h args kw σ).1.
Proof using All.
  revert d aw h args kw σ. induction fuel as [|n IH]; intros d aw h args kw σ Hd Hσ; [done|].
  simpl. destruct (functions σ !! h) as [[body|body|e hs]|] eqn:Hh; [| | |done].
  - apply (J_run_script J okd okc); eauto.
  - destruct aw; [|done]. apply (J_run_script J okd okc); eauto.
  - by apply J_wrapper.
Qed.
End InvariantOfCall.

(** ** Later states *)

Lemma later_refl d σ : later d σ σ.
Proof. split; exists []; by rewrite app_nil_r. Qed.

Lemma later_trans d σ1 σ2 σ3 : later d σ1 σ2 → later d σ2 σ3 → later d σ1 σ3.
Proof.
  intros [(ws & Hf & Hws) (new & Ht & Hnew)] [(ws' & Hf' & Hws') (new' & Ht' & Hnew')].
  split.
  - exists (ws ++ ws'). rewrite Hf', Hf, <- (assoc_L (++)). split; [done|].
    by apply Forall_app.
  - exists (new ++ new'). rewrite Ht', Ht, <- (assoc_L (++)). split; [done|].
    by apply Forall_app.
Qed.

Lemma later_weaken d d' σ σ' : d ≤ d' → later d' σ σ' → later d σ σ'.
Proof.
  intros Hd [Hf (new & Ht & Hnew)]. split; [done|]. exists new. split; [done|].
  eapply Forall_impl; [done|]. simpl. lia.
Qed.

Lemma later_same d σ0 σ σ' :
  functions σ' = functions σ → trace σ' = trace σ → later d σ0 σ → later d σ0 σ'.
Proof. unfold later. by intros -> ->. Qed.

Lemma later_record d ev σ0 σ :
  d ≤ depth_of ev → later d σ0 σ → later d σ0 (record ev σ).
Proof.
  intros Hd Hσ. eapply later_trans; [done|]. split; [exists []; by rewrite app_nil_r|].
  exists [ev]. split; [done|]. by constructor.
Qed.

Lemma later_new_function d e hs σ0 σ :
  later d σ0 σ → later d σ0 (new_function (OnceWrapper e hs) σ).1.
Proof.
  intros Hσ. eapply later_trans; [done|]. split; [|exists []; by rewrite app_nil_r].
  exists [OnceWrapper e hs]. split; [done|]. by constructor.
Qed.

Lemma on_frame e hs σ :
  functions (on e hs σ).1 = functions σ ∧ trace (on e hs σ).1 = trace σ.
Proof.
  destruct hs; [done|]. unfold on, _on_wrapper, getitem.
  by destruct (_events σ !! e).
Qed.

Lemma off_handlers_frame e hs σ :
  functions (off_handlers e hs σ).1 = functions σ ∧
  trace (off_handlers e hs σ).1 = trace σ.
Proof.
  revert σ. induction hs as [|h hs IH]; intros σ; [done|].
  simpl. destruct (getitem (_events σ) e) as [m l]. case_bool_decide; [|done].
  destruct (IH (set_events (<[e:=remove_while (length l) h l]> m) σ)) as [-> ->]. done.
Qed.

Lemma off_frame e hs σ :
  functions (off e hs σ).1 = functions σ ∧ trace (off e hs σ).1 = trace σ.
Proof.
  unfold off. destruct (falsy e); [done|].
  destruct (_events σ !! default "" e); [|done].
  destruct hs; [done|]. apply off_handlers_frame.
Qed.

Lemma later_on d e hs σ0 σ : later d σ0 σ → later d σ0 (on e hs σ).1.
Proof. destruct (on_frame e hs σ). by apply later_same. Qed.

Lemma later_off d e hs σ0 σ : later d σ0 σ → later d σ0 (off e hs σ).1.
Proof. destruct (off_frame e hs σ). by apply later_same. Qed.

Lemma later_once d e hs σ0 σ : later d σ0 σ → later d σ0 (once e hs σ).1.
Proof.
  intros Hσ. destruct hs as [|h hs]; [done|]. unfold once, _once_wrapper.
  destruct (new_function _ σ) as [σ1 w] eqn:E.
  apply later_on. replace σ1 with (new_function (OnceWrapper e (h :: hs)) σ).1
    by (by rewrite E).
  by apply later_new_function.
Qed.

(** Whatever a call does, it only adds closures of [once] to the store
    and events at its own depth or deeper to the trace. *)
Lemma call_later fuel d aw h args kw σ :
  later d σ (call fuel d aw h args kw σ).1.
Proof.
  apply (J_call_fuel (later d σ) (λ d', d ≤ d') (λ _, True));
    try (intros; first [by apply later_on | by apply later_off | by apply later_once
                       | by apply later_record]).
  - intros; lia.
  - intros. by apply Forall_true.
  - intros n IH d' w e hs args' kw' σ' Hd Hσ' Hw.
    pose proof (later_off d (Some e) [w] _ _ Hσ') as Hoff.
    destruct (off (Some e) [w] σ') as [σ1 [v|x|]]; simpl in *; try done.
    apply (J_wrapped_handlers (later d σ) (λ d', d ≤ d')); auto.
    intros. by apply later_record.
  - done.
  - apply later_refl.
Qed.

Lemma later_since d σ σ' :
  later d σ σ' →
  trace σ' = trace σ ++ since σ σ' ∧ Forall (λ ev, d ≤ depth_of ev) (since σ σ').
Proof.
  intros [_ (new & Ht & Hnew)]. unfold since. by rewrite Ht, drop_app_length.
Qed.

Lemma since_same σ : since σ σ = [].
Proof. unfold since. apply drop_all. Qed.

Lemma since_trans d d' σ1 σ2 σ3 :
  later d σ1 σ2 → later d' σ2 σ3 → since σ1 σ3 = since σ1 σ2 ++ since σ2 σ3.
Proof.
  intros [H12 _]%later_since [H23 _]%later_since.
  unfold since at 1. rewrite H23, H12 at 1.
  by rewrite <- (assoc_L (++)), drop_app_length.
Qed.

Lemma since_record ev σ : since σ (record ev σ) = [ev].
Proof. unfold since. simpl. by rewrite drop_app_length. Qed.

Lemma iscoroutinefunction_later d σ σ' h :
  later d σ σ' → iscoroutinefunction σ' h = iscoroutinefunction σ h.
Proof.
  intros [(ws & Hf & Hws) _]. unfold iscoroutinefunction. rewrite Hf.
  destruct (functions σ !! h) as [c|] eqn:Hh.
  - by rewrite (lookup_app_l_Some _ _ _ _ Hh).
  - rewrite lookup_app_r by (by apply lookup_ge_None).
    destruct (ws !! _) as [c|] eqn:Hc; [|done].
    eapply Forall_lookup_1 in Hws; [|done]. by destruct c.
Qed.

Lemma sync_record_later d' d σ σ' args kw h :
  later d' σ σ' → sync_record d σ' args kw h = sync_record d σ args kw h.
Proof. intros H. unfold sync_record. by rewrite (iscoroutinefunction_later _ _ _ _ H). Qed.

Lemma async_record_later d' d σ σ' args kw h :
  later d' σ σ' → async_record d σ' args kw h = async_record d σ args kw h.
Proof. intros H. unfold async_record. by rewrite (iscoroutinefunction_later _ _ _ _ H). Qed.

Lemma depth_sync_record d σ args kw h : depth_of (sync_record d σ args kw h) = d.
Proof. unfold sync_record. by destruct (iscoroutinefunction σ h). Qed.

Lemma depth_async_record d σ args kw h : depth_of (async_record d σ args kw h) = d.
Proof. unfold async_record. by destruct (iscoroutinefunction σ h). Qed.

Lemma filter_sequence_of d records segments :
  Forall (λ r, depth_of r = d) records →
  Forall (Forall (λ ev, d < depth_of ev)) segments →
  length segments = length records →
  filter (λ ev, depth_of ev = d) (sequence_of records segments) = records.
Proof.
  intros Hrec. revert segments.
  induction Hrec as [|r records Hr Hrec IH]; intros segments Hseg Hlen.
  - by destruct segments.
  - destruct segments as [|s segments]; [done|].
    apply Forall_cons in Hseg as [Hs Hseg]. simpl.
    rewrite filter_cons_True by done. f_equal.
    rewrite filter_app, IH by (auto; simpl in Hlen; lia).
    replace (filter _ s) with (@nil tevent); [done|].
    symmetry. clear -Hs. induction Hs as [|ev s Hev Hs IHs]; [done|].
    rewrite filter_cons_False by lia. done.
Qed.

(** ** The loops of [trigger] and [trigger_async] *)

Section Loops.
Variable call : nat → bool → hid → list pyval → kwargs → world → world * outcome.
Hypothesis call_later' : ∀ d aw h args kw σ, later d σ (call d aw h args kw σ).1.

Lemma trigger_callbacks_app d l1 l2 args kw σ :
  trigger_callbacks call d (l1 ++ l2) args kw σ =
  match trigger_callbacks call d l1 args kw σ with
  | (σ', Ret _) => trigger_callbacks call d l2 args kw σ'
  | (σ', out) => (σ', out)
  end.
Proof using Type.
  revert σ. induction l1 as [|h l1 IH]; intros σ; [done|].
  simpl. destruct (iscoroutinefunction σ h).
  - case_bool_decide; [done|]. by destruct (loop_running σ).
  - destruct (call _ _ _ _ _ _) as [σ' [v|x|]]; [apply IH|done|done].
Qed.

Lemma trigger_callbacks_trace d callbacks args kw σ :
  later d σ (trigger_callbacks call d callbacks args kw σ).1 ∧
  ∃ done segments,
    done `prefix_of` callbacks ∧ length segments = length done ∧
    since σ (trigger_callbacks call d callbacks args kw σ).1
      = sequence_of (map (sync_record d σ args kw) done) segments ∧
    Forall (Forall (λ ev, d < depth_of ev)) segments ∧
    (is_ret (trigger_callbacks call d callbacks args kw σ).2 = true →
     done = callbacks).
Proof using call_later'.
  revert σ. induction callbacks as [|cb rest IH]; intros σ.
  { split; [apply later_refl|]. exists [], []. by rewrite since_same. }
  simpl. destruct (iscoroutinefunction σ cb) eqn:Hco.
  - case_bool_decide as Hkw.
    { split; [apply later_refl|]. exists [], []. rewrite since_same.
      repeat split; try done. apply prefix_nil. }
    destruct (loop_running σ).
    + split; [apply later_record; [done|apply later_refl]|].
      exists [cb], [[]]. repeat split; try done.
      * apply prefix_cons, prefix_nil.
      * simpl. rewrite since_record. unfold sync_record. by rewrite Hco.
      * by repeat constructor.
    + split; [apply later_refl|]. exists [], []. rewrite since_same.
      repeat split; try done. apply prefix_nil.
  - set (σ1 := record (Call d cb args kw) σ).
    assert (later d σ σ1) as H1 by (apply later_record; [done|apply later_refl]).
    pose proof (call_later' (S d) false cb args kw σ1) as H2.
    destruct (call (S d) false cb args kw σ1) as [σ2 out] eqn:Hc. simpl in H2.
    assert (Forall (λ ev, d < depth_of ev) (since σ1 σ2)) as Hdeep.
    { apply later_since in H2 as [_ H2]. eapply Forall_impl; [done|]. simpl. lia. }
    assert (later d σ σ2) as H12.
    { eapply later_trans; [done|]. eapply later_weaken; [|done]. lia. }
    assert (since σ σ2 = Call d cb args kw :: since σ1 σ2) as Hs12.
    { rewrite (since_trans _ _ _ _ _ H1 H2). unfold σ1 at 1. by rewrite since_record. }
    destruct out as [v|x|].
    + destruct (IH σ2) as (Hl & done & segs & Hpre & Hlen & Hs & Hseg & Hret).
      split; [by eapply later_trans|].
      exists (cb :: done), (since σ1 σ2 :: segs). repeat split.
      * by apply prefix_cons.
      * simpl. by rewrite Hlen.
      * rewrite (since_trans _ _ _ _ _ H12 Hl), Hs, Hs12. simpl.
        unfold sync_record at 2. rewrite Hco. do 3 f_equal.
        apply map_ext. intros h. apply (sync_record_later _ _ _ _ _ _ _ H12).
      * by constructor.
      * intros Hr. by rewrite (Hret Hr).
    + split; [done|]. exists [cb], [since σ1 σ2]. repeat split; try done.
      * apply prefix_cons, prefix_nil.
      * simpl. rewrite Hs12, app_nil_r. unfold sync_record. by rewrite Hco.
      * by constructor.
    + split; [done|]. exists [cb], [since σ1 σ2]. repeat split; try done.
      * apply prefix_cons, prefix_nil.
      * simpl. rewrite Hs12, app_nil_r. unfold sync_record. by rewrite Hco.
      * by constructor.
Qed.

Lemma trigger_async_callbacks_trace d callbacks args kw σ :
  later d σ (trigger_async_callbacks call d callbacks args kw σ).1 ∧
  ∃ done segments,
    done `prefix_of` callbacks ∧ length segments = length done ∧
    since σ (trigger_async_callbacks call d callbacks args kw σ).1
      = sequence_of (map (async_record d σ args kw) done) segments ∧
    Forall (Forall (λ ev, d < depth_of ev)) segments ∧
    (is_ret (trigger_async_callbacks call d callbacks args kw σ).2 = true →
     done = callbacks).
Proof using call_later'.
  revert σ. induction callbacks as [|cb rest IH]; intros σ.
  { split; [apply later_refl|]. exists [], []. by rewrite since_same. }
  simpl.
  set (σ1 := record (async_record d σ args kw cb) σ).
  assert ((if iscoroutinefunction σ cb
           then call (S d) true cb args kw (record (Await d cb args kw) σ)
           else call (S d) false cb args kw (record (Call d cb args kw) σ))
          = call (S d) (iscoroutinefunction σ cb) cb args kw σ1) as ->.
  { unfold σ1, async_record. by destruct (iscoroutinefunction σ cb). }
  assert (later d σ σ1) as H1.
  { apply later_record; [|apply later_refl]. by rewrite depth_async_record. }
  generalize (iscoroutinefunction σ cb) as aw. intros aw.
  pose proof (call_later' (S d) aw cb args kw σ1) as H2.
  destruct (call (S d) aw cb args kw σ1) as [σ2 out] eqn:Hc. simpl in H2.
  assert (Forall (λ ev, d < depth_of ev) (since σ1 σ2)) as Hdeep.
  { apply later_since in H2 as [_ H2]. eapply Forall_impl; [done|]. simpl. lia. }
  assert (later d σ σ2) as H12.
  { eapply later_trans; [done|]. eapply later_weaken; [|done]. lia. }
  assert (since σ σ2 = async_record d σ args kw cb :: since σ1 σ2) as Hs12.
  { rewrite (since_trans _ _ _ _ _ H1 H2). unfold σ1 at 1. by rewrite since_record. }
  destruct out as [v|x|].
  - destruct (IH σ2) as (Hl & done & segs & Hpre & Hlen & Hs & Hseg & Hret).
    split; [by eapply later_trans|].
    exists (cb :: done), (since σ1 σ2 :: segs). repeat split.
    + by apply prefix_cons.
    + simpl. by rewrite Hlen.
    + rewrite (since_trans _ _ _ _ _ H12 Hl), Hs, Hs12. simpl. do 3 f_equal.
      apply map_ext. intros h. apply (async_record_later _ _ _ _ _ _ _ H12).
    + by constructor.
    + intros Hr. by rewrite (Hret Hr).
  - split; [done|]. exists [cb], [since σ1 σ2]. repeat split; try done.
    + apply prefix_cons, prefix_nil.
    + simpl. by rewrite Hs12, app_nil_r.
    + by constructor.
  - split; [done|]. exists [cb], [since σ1 σ2]. repeat split; try done.
    + apply prefix_cons, prefix_nil.
    + simpl. by rewrite Hs12, app_nil_r.
    + by constructor.
Qed.
End Loops.

(** ** Synchronous dispatch to coroutine functions *)

Lemma tuple_is_one_argument args : [PTuple args] ≠ args.
Proof.
  intros H. apply (f_equal (foldr (λ x n, pysize x + n) 0)) in H.
  simpl in H. lia.
Qed.

(** L.135, reached with no keyword argument: without a running loop
    nothing happens but [RuntimeError]; with one, the callable is handed
    to the executor with the tuple of the arguments as its only
    argument, and [TypeError] follows.  The handlers after it are not
    reached. *)
Lemma trigger_at_coroutine callf d σ e h rest args :
  get_handlers σ e = h :: rest → iscoroutinefunction σ h = true →
  trigger callf d e args [] σ =
    (if loop_running σ
     then (record (Submit d h [PTuple args]) σ, Raise TypeError)
     else (σ, Raise RuntimeError)) ∧
  [PTuple args] ≠ args.
Proof.
  intros Hs Hco. split; [|apply tuple_is_one_argument].
  unfold trigger. rewrite Hs. simpl. rewrite Hco. by destruct (loop_running σ).
Qed.

(** C1: [obs.trigger("e", 1, 2)] with a coroutine function [h] registered
    for ["e"] does not schedule [h] and return [True]: it raises.  With
    an event loop running, [h] has been handed to the executor with ONE
    argument, the tuple [(1, 2)] (l.135 passes [args], not [*args]), so
    that [h] would be called as [h((1, 2))] and not as [h(1, 2)], and
    [create_task] then raises [TypeError] on the future it is given;
    with no loop running, [get_running_loop] raises [RuntimeError] and
    nothing was handed over. *)
Theorem trigger_hands_executor_one_tuple fuel :
  trigger (call fuel) 0 "e" [PInt 1; PInt 2] [] (in_loop async_listener) =
    (record (Submit 0 0 [PTuple [PInt 1; PInt 2]]) (in_loop async_listener),
     Raise TypeError) ∧
  trigger (call fuel) 0 "e" [PInt 1; PInt 2] [] async_listener =
    (async_listener, Raise RuntimeError) ∧
  [PTuple [PInt 1; PInt 2]] ≠ [PInt 1; PInt 2].
Proof.
  split; [|split].
  - by apply (trigger_at_coroutine (call fuel) 0 (in_loop async_listener) "e" 0 []).
  - by apply (trigger_at_coroutine (call fuel) 0 async_listener "e" 0 []).
  - apply tuple_is_one_argument.
Qed.

(** C4, as stated, fails: with a keyword argument and a coroutine
    function in the snapshot, an ordinary handler registered ahead of it
    is called first, and when that handler raises [HandlerNotFound] the
    call fails with [HandlerNotFound], not with the usage error. *)
Lemma trigger_named_args_other_error :
  get_handlers failing_then_async "e" = [0; 1] ∧
  iscoroutinefunction failing_then_async 1 = true ∧
  (trigger (call 1) 0 "e" [] [("k", PInt 1)] failing_then_async).2
  = Raise (HandlerNotFound "e" 9) ∧
  (trigger (call 1) 0 "e" [] [("k", PInt 1)] failing_then_async).2
  ≠ Raise (SyntaxError named_args_msg).
Proof.
  split; [by vm_compute|]. split; [done|].
  assert ((trigger (call 1) 0 "e" [] [("k", PInt 1)] failing_then_async).2
          = Raise (HandlerNotFound "e" 9)) as -> by (by vm_compute).
  done.
Qed.

(** C4, amended: when a synchronous trigger call has a keyword argument
    and its snapshot contains a coroutine function, the ordinary handlers
    registered ahead of the first coroutine function are called first,
    with the keyword arguments.  If they all return, the call raises
    [SyntaxError], which is neither [EventNotFound] nor
    [HandlerNotFound], on reaching the coroutine function; if one of them
    fails, that failure is the outcome of the call.  Either way the call
    does not return normally, and it hands nothing to the executor: all
    it dispatched are calls to ordinary handlers ahead. *)
Theorem trigger_named_args_with_coroutine fuel d σ e args kw ahead a rest :
  kw ≠ [] →
  get_handlers σ e = ahead ++ a :: rest →
  Forall (λ h, iscoroutinefunction σ h = false) ahead →
  iscoroutinefunction σ a = true →
  trigger (call fuel) d e args kw σ =
    ((trigger_callbacks (call fuel) d ahead args kw σ).1,
     if is_ret (trigger_callbacks (call fuel) d ahead args kw σ).2
     then Raise (SyntaxError named_args_msg)
     else (trigger_callbacks (call fuel) d ahead args kw σ).2) ∧
  is_ret (trigger (call fuel) d e args kw σ).2 = false ∧
  (∀ event h, SyntaxError named_args_msg ≠ EventNotFound event ∧
              SyntaxError named_args_msg ≠ HandlerNotFound event h) ∧
  (∀ ev, ev ∈ dispatched d σ (trigger (call fuel) d e args kw σ).1 →
         ∃ h, h ∈ ahead ∧ ev = Call d h args kw).
Proof.
  intros Hkw Hs Hahead Ha.
  assert (trigger (call fuel) d e args kw σ =
    ((trigger_callbacks (call fuel) d ahead args kw σ).1,
     if is_ret (trigger_callbacks (call fuel) d ahead args kw σ).2
     then Raise (SyntaxError named_args_msg)
     else (trigger_callbacks (call fuel) d ahead args kw σ).2)) as Heq.
  { unfold trigger. rewrite Hs.
    destruct (ahead ++ a :: rest) as [|x xs] eqn:Hl; [by destruct ahead|].
    rewrite <- Hl, trigger_callbacks_app.
    destruct (trigger_callbacks_trace (call fuel) (call_later fuel) d ahead args kw σ)
      as [Hl1 _].
    destruct (trigger_callbacks (call fuel) d ahead args kw σ) as [σ1 [v|x'|]];
      simpl in *; try done.
    rewrite (iscoroutinefunction_later _ _ _ _ Hl1), Ha.
    rewrite bool_decide_true; [done|]. destruct kw; [done|simpl; lia]. }
  split; [done|]. rewrite Heq. simpl. split; [|split].
  - by destruct (trigger_callbacks (call fuel) d ahead args kw σ) as [σ1 [v|x'|]].
  - done.
  - destruct (trigger_callbacks_trace (call fuel) (call_later fuel) d ahead args kw σ)
      as (Hl1 & done & segs & Hpre & Hlen & Hsince & Hseg & _).
    intros ev. unfold dispatched. rewrite Hsince, filter_sequence_of; [|
      apply Forall_map, Forall_true; intros h; apply depth_sync_record | done |
      by rewrite length_map].
    intros (h & -> & Hh)%list_elem_of_fmap.
    assert (h ∈ ahead) as Hin.
    { destruct Hpre as [k ->]. apply elem_of_app. by left. }
    exists h. split; [done|]. unfold sync_record.
    by rewrite (proj1 (Forall_forall _ _) Hahead h Hin).
Qed.

Lemma trigger_named_args_with_coroutine_witness :
  trigger (call 1) 0 "e" [PInt 7] [("k", PInt 1)] plain_then_async =
    (record (Call 0 0 [PInt 7] [("k", PInt 1)]) plain_then_async,
     Raise (SyntaxError named_args_msg)).
Proof.
  destruct (trigger_named_args_with_coroutine 1 0 plain_then_async "e"
              [PInt 7] [("k", PInt 1)] [0] 1 []) as [-> _].
  - done.
  - by vm_compute.
  - by repeat constructor.
  - done.
  - by vm_compute.
Defined.

(** ** Handlers that only register *)

Lemma run_script_registers_only call d body σ :
  Forall registers_only body → is_ret (run_script call d body σ).2 = true.
Proof.
  intros Hall. revert σ. induction Hall as [|c body Hc Hall IH]; intros σ; [done|].
  destruct c as [e hs|e hs|e hs|e xs kw|e xs kw|x|e h]; try done; simpl.
  - destruct hs as [|h hs]; simpl; [apply IH|].
    unfold _on_wrapper. destruct (getitem (_events σ) e). apply IH.
  - destruct hs as [|h hs]; simpl; [apply IH|].
    unfold _on_wrapper. destruct (getitem _ e). apply IH.
  - destruct (is_registered σ e h); [apply IH|done].
Qed.

Lemma call_quiet n d aw h args kw σ :
  quiet σ h → is_ret (call (S n) d aw h args kw σ).2 = true.
Proof.
  intros (body & [Hh|Hh] & Hbody); simpl; rewrite Hh.
  - by apply run_script_registers_only.
  - destruct aw; [|done]. by apply run_script_registers_only.
Qed.

Lemma quiet_later d σ σ' h : later d σ σ' → quiet σ h → quiet σ' h.
Proof.
  intros [(ws & Hf & _) _] (body & Hh & Hbody). exists body. split; [|done].
  rewrite Hf. destruct Hh as [Hh|Hh]; [left|right]; by apply lookup_app_l_Some.
Qed.

Lemma trigger_async_callbacks_quiet n d callbacks args kw σ :
  Forall (quiet σ) callbacks →
  (trigger_async_callbacks (call (S n)) d callbacks args kw σ).2 = Ret (RBool true).
Proof.
  revert σ. induction callbacks as [|cb rest IH]; intros σ Hq; [done|].
  apply Forall_cons in Hq as [Hcb Hrest].
  cbn [trigger_async_callbacks].
  set (σ1 := record (async_record d σ args kw cb) σ).
  assert ((if iscoroutinefunction σ cb
           then call (S n) (S d) true cb args kw (record (Await d cb args kw) σ)
           else call (S n) (S d) false cb args kw (record (Call d cb args kw) σ))
          = call (S n) (S d) (iscoroutinefunction σ cb) cb args kw σ1) as ->.
  { unfold σ1, async_record. by destruct (iscoroutinefunction σ cb). }
  assert (later d σ σ1) as H1.
  { apply later_record; [|apply later_refl]. by rewrite depth_async_record. }
  generalize (iscoroutinefunction σ cb) as aw. intros aw.
  pose proof (call_later (S n) (S d) aw cb args kw σ1) as H2.
  pose proof (call_quiet n (S d) aw cb args kw σ1 (quiet_later _ _ _ _ H1 Hcb)) as Hr.
  destruct (call (S n) (S d) aw cb args kw σ1) as [σ2 [v|x|]]; try done.
  apply IH. eapply Forall_impl; [done|]. intros h Hh. simpl in H2.
  eapply quiet_later; [|eapply quiet_later; [|done]]; done.
Qed.

(** ** The snapshot *)

Lemma trigger_dispatched fuel d σ e args kw :
  dispatched_from (sync_record d σ args kw) (get_handlers σ e) d σ
    (trigger (call fuel) d e args kw σ).1 (trigger (call fuel) d e args kw σ).2.
Proof.
  unfold trigger. destruct (get_handlers σ e) as [|cb rest] eqn:Hs.
  { exists []. unfold dispatched. by rewrite since_same. }
  destruct (trigger_callbacks_trace (call fuel) (call_later fuel) d (cb :: rest) args kw σ)
    as (_ & done & segs & Hpre & Hlen & Hsince & Hseg & Hret).
  exists done. split; [done|]. split; [|done].
  unfold dispatched. rewrite Hsince. apply filter_sequence_of; [|done|by rewrite length_map].
  apply Forall_map, Forall_true. intros h. apply depth_sync_record.
Qed.

Lemma trigger_async_dispatched fuel d σ e args kw :
  dispatched_from (async_record d σ args kw) (get_handlers σ e) d σ
    (trigger_async (call fuel) d e args kw σ).1
    (trigger_async (call fuel) d e args kw σ).2.
Proof.
  unfold trigger_async. destruct (get_handlers σ e) as [|cb rest] eqn:Hs.
  { exists []. unfold dispatched. by rewrite since_same. }
  destruct (trigger_async_callbacks_trace (call fuel) (call_later fuel) d (cb :: rest) args kw σ)
    as (_ & done & segs & Hpre & Hlen & Hsince & Hseg & Hret).
  exists done. split; [done|]. split; [|done].
  unfold dispatched. rewrite Hsince. apply filter_sequence_of; [|done|by rewrite length_map].
  apply Forall_map, Forall_true. intros h. apply depth_async_record.
Qed.

(** The handlers a call of [trigger] or [trigger_async] on [e]
    dispatches are those of the list [e] had when the call began, in that
    order (all of them when the call returns, the first ones up to the
    handler that failed otherwise), whatever the handlers do to the
    registry while they run; and so for a second call, from the state
    the first one left. *)
Lemma dispatched_prefix_of_snapshot fuel d σ e args kw args' kw' :
  (let '(σ1, out1) := trigger (call fuel) d e args kw σ in
   let '(σ2, out2) := trigger (call fuel) d e args' kw' σ1 in
   dispatched_from (sync_record d σ args kw) (get_handlers σ e) d σ σ1 out1 ∧
   dispatched_from (sync_record d σ1 args' kw') (get_handlers σ1 e) d σ1 σ2 out2) ∧
  (let '(σ1, out1) := trigger_async (call fuel) d e args kw σ in
   let '(σ2, out2) := trigger_async (call fuel) d e args' kw' σ1 in
   dispatched_from (async_record d σ args kw) (get_handlers σ e) d σ σ1 out1 ∧
   dispatched_from (async_record d σ1 args' kw') (get_handlers σ1 e) d σ1 σ2 out2).
Proof.
  split.
  - pose proof (trigger_dispatched fuel d σ e args kw) as H1.
    destruct (trigger (call fuel) d e args kw σ) as [σ1 out1].
    pose proof (trigger_dispatched fuel d σ1 e args' kw') as H2.
    by destruct (trigger (call fuel) d e args' kw' σ1) as [σ2 out2].
  - pose proof (trigger_async_dispatched fuel d σ e args kw) as H1.
    destruct (trigger_async (call fuel) d e args kw σ) as [σ1 out1].
    pose proof (trigger_async_dispatched fuel d σ1 e args' kw') as H2.
    by destruct (trigger_async (call fuel) d e args' kw' σ1) as [σ2 out2].
Qed.

(** A handler of ["e"] that registers a second handler for ["e"] while it
    runs: the call under way dispatches the first handler only, the next
    call dispatches both. *)
Example handler_registering_another :
  let '(σ1, out1) := trigger (call 2) 0 "e" [] [] self_extending in
  let '(σ2, out2) := trigger (call 2) 0 "e" [] [] σ1 in
  get_handlers self_extending "e" = [0] ∧
  dispatched 0 self_extending σ1 = [Call 0 0 [] []] ∧ out1 = Ret (RBool true) ∧
  get_handlers σ1 "e" = [0; 1] ∧
  dispatched 0 σ1 σ2 = [Call 0 0 [] []; Call 0 1 [] []] ∧ out2 = Ret (RBool true).
Proof. by vm_compute. Qed.

(** ** Asynchronous dispatch *)

(** The trace of a call of [trigger_async] is, for each handler in
    turn, the record of its dispatch (an awaited call for a coroutine
    function, a plain call for an ordinary handler) followed by what
    that handler did, all of it before the next dispatch.  When the call
    returns, every handler of the snapshot was dispatched and the value
    is [True] if and only if the snapshot was not empty; on an empty
    snapshot it returns [False] and changes nothing, and on handlers that
    only register it does return. *)
Lemma trigger_async_trace_and_value fuel d σ e args kw :
  let '(σ', out) := trigger_async (call fuel) d e args kw σ in
  (∃ done segments,
     done `prefix_of` get_handlers σ e ∧ length segments = length done ∧
     trace σ' = trace σ ++ sequence_of (map (async_record d σ args kw) done) segments ∧
     Forall (Forall (λ ev, d < depth_of ev)) segments ∧
     (is_ret out = true → done = get_handlers σ e)) ∧
  (∀ v, out = Ret v → v = RBool (bool_decide (get_handlers σ e ≠ []))) ∧
  (get_handlers σ e = [] → σ' = σ ∧ out = Ret (RBool false)) ∧
  (0 < fuel → get_handlers σ e ≠ [] → Forall (quiet σ) (get_handlers σ e) →
   out = Ret (RBool true)).
Proof.
  unfold trigger_async. destruct (get_handlers σ e) as [|cb rest] eqn:Hs.
  { split; [|by repeat split; try intros ? [= <-]].
    exists [], []. by rewrite app_nil_r. }
  destruct (trigger_async_callbacks_trace (call fuel) (call_later fuel) d (cb :: rest) args kw σ)
    as (Hl & done & segs & Hpre & Hlen & Hsince & Hseg & Hret).
  assert (0 < fuel → Forall (quiet σ) (cb :: rest) →
          (trigger_async_callbacks (call fuel) d (cb :: rest) args kw σ).2
          = Ret (RBool true)) as Hq.
  { intros Hfuel Hquiet. destruct fuel as [|n]; [lia|].
    by apply trigger_async_callbacks_quiet. }
  assert (∀ v, (trigger_async_callbacks (call fuel) d (cb :: rest) args kw σ).2 = Ret v →
               v = RBool true) as Hv.
  { intros v Hout.
    assert (is_ret (trigger_async_callbacks (call fuel) d (cb :: rest) args kw σ).2 = true)
      as Hr by (by rewrite Hout).
    clear -Hout. revert σ Hout. generalize (cb :: rest) as l.
    induction l as [|x l IH]; intros σ; simpl; [by intros [= <-]|].
    destruct (iscoroutinefunction σ x);
      destruct (call _ _ _ _ _ _ _) as [σ2 [w|y|]]; simpl; try done; apply IH. }
  destruct (trigger_async_callbacks (call fuel) d (cb :: rest) args kw σ) as [σ' out].
  simpl in Hl, Hsince, Hret, Hv, Hq. split; [|split; [|split]].
  - exists done, segs. repeat split; try done.
    apply later_since in Hl as [-> _]. by rewrite Hsince.
  - intros v Hv'. by rewrite (Hv v Hv').
  - done.
  - intros Hfuel _ Hquiet. by apply Hq.
Qed.

(** The run of [trigger_async] on two coroutine functions around an
    ordinary handler. *)
Example trigger_async_interleaved :
  trigger_async (call 1) 0 "e" [PInt 5] [] interleaved =
  (World (_events interleaved) (functions interleaved)
     [Await 0 0 [PInt 5] []; Call 0 1 [PInt 5] []; Await 0 2 [PInt 5] []] false,
   Ret (RBool true)).
Proof. by vm_compute. Qed.

(** ** What the registry operations do to the list of an event *)

Lemma getitem_get m event e :
  default [] ((getitem m event).1 !! e) = default [] (m !! e) ∧
  (getitem m event).2 = default [] (m !! event).
Proof.
  unfold getitem. destruct (m !! event) eqn:Hm; simpl; [done|].
  split; [|done]. destruct (decide (event = e)) as [->|Hne].
  - by rewrite lookup_insert_eq, Hm.
  - by rewrite lookup_insert_ne.
Qed.

Lemma get_handlers_on event handlers σ e :
  get_handlers (on event handlers σ).1 e =
  if decide (event = e) then get_handlers σ e ++ handlers else get_handlers σ e.
Proof.
  destruct handlers as [|h handlers].
  { simpl. case_decide; by rewrite ?app_nil_r. }
  unfold get_handlers. rewrite on_lookup by done. case_decide as He.
  - subst. by rewrite lookup_insert_eq.
  - by rewrite lookup_insert_ne.
Qed.

Lemma off_handlers_subset event handlers σ e x :
  x ∈ get_handlers (off_handlers event handlers σ).1 e → x ∈ get_handlers σ e.
Proof.
  revert σ. induction handlers as [|h handlers IH]; intros σ; [done|].
  simpl. destruct (getitem_get (_events σ) event e) as [Hm Hl].
  destruct (getitem_get (_events σ) event event) as [_ Hl'].
  destruct (getitem (_events σ) event) as [m l]. simpl in *.
  case_bool_decide as Hin.
  - intros Hx%IH. revert Hx. unfold get_handlers. simpl.
    destruct (decide (event = e)) as [->|Hne].
    + rewrite lookup_insert_eq. simpl. rewrite remove_while_filter by done.
      intros [_ Hx]%list_elem_of_filter. by rewrite <- Hl'.
    + rewrite lookup_insert_ne by done. by rewrite Hm.
  - unfold get_handlers. simpl. by rewrite Hm.
Qed.

Lemma off_subset event handlers σ e x :
  x ∈ get_handlers (off event handlers σ).1 e → x ∈ get_handlers σ e.
Proof.
  unfold off. destruct (falsy event).
  { unfold get_handlers. simpl. rewrite lookup_empty. by intros ?%elem_of_nil. }
  destruct (_events σ !! default "" event) as [l|] eqn:Hl; [|done].
  destruct handlers as [|h handlers]; [|apply off_handlers_subset].
  unfold get_handlers. simpl. destruct (decide (default "" event = e)) as [<-|Hne].
  - rewrite lookup_delete_eq. by intros ?%elem_of_nil.
  - by rewrite lookup_delete_ne.
Qed.

(** The wrapper's own [self.off(event, _wrapper)] on a non-empty name:
    it raises when the wrapper is not registered for the event, and
    otherwise leaves the wrapper unregistered. *)
Lemma off_self_absent e w σ :
  e ≠ "" → w ∉ get_handlers σ e →
  (off (Some e) [w] σ).1 = σ ∧ is_ret (off (Some e) [w] σ).2 = false.
Proof.
  intros He Hw. rewrite off_named by done. unfold get_handlers in Hw.
  destruct (_events σ !! e) as [l|] eqn:Hl; [|done].
  by rewrite (off_handlers_absent _ _ _ _ l).
Qed.

Lemma off_self_present e w σ :
  e ≠ "" → is_ret (off (Some e) [w] σ).2 = true →
  w ∈ get_handlers σ e ∧ w ∉ get_handlers (off (Some e) [w] σ).1 e.
Proof.
  intros He Hret. destruct (decide (w ∈ get_handlers σ e)) as [Hw|Hw].
  - split; [done|].
    by destruct (off_one_registered σ e w He Hw) as (σ' & -> & Hnot & _).
  - destruct (off_self_absent e w σ He Hw) as [_ Hf]. congruence.
Qed.

(** ** Calls made by a wrapper *)

Lemma calls_by_app w t1 t2 : calls_by w (t1 ++ t2) = calls_by w t1 ++ calls_by w t2.
Proof.
  induction t1 as [|ev t1 IH]; [done|]. destruct ev; simpl; try done.
  case_decide; simpl; by rewrite IH.
Qed.

Lemma calls_by_record w ev σ :
  calls_by w (trace (record ev σ)) = calls_by w (trace σ) ++ calls_by w [ev].
Proof. simpl. apply calls_by_app. Qed.

Lemma once_trace e hs σ : trace (once e hs σ).1 = trace σ.
Proof.
  destruct hs as [|h hs]; [done|]. unfold once, _once_wrapper.
  destruct (new_function _ σ) as [σ1 w1] eqn:E.
  destruct (on_frame e [w1] σ1) as [_ ->]. by injection E as <- _.
Qed.

Section OnceWrapper.
Variables (w : hid) (e : string) (hs : list hid).
Hypothesis e_named : e ≠ "".

Lemma wrapper_in_same σ σ' :
  functions σ' = functions σ → wrapper_in w e hs σ → wrapper_in w e hs σ'.
Proof using Type. unfold wrapper_in, never_registers. by intros ->. Qed.

Lemma wrapper_in_once e' hs' σ : wrapper_in w e hs σ → wrapper_in w e hs (once e' hs' σ).1.
Proof using Type.
  intros [Hw Hnr]. destruct hs' as [|h' hs']; [done|].
  unfold once, _once_wrapper, new_function.
  eapply wrapper_in_same; [apply on_frame|]. simpl. split.
  - by apply lookup_app_l_Some.
  - intros h body Hh. apply (Hnr h). simpl in Hh.
    destruct (functions σ !! h) as [c|] eqn:Hc.
    + by rewrite (lookup_app_l_Some _ _ _ _ Hc) in Hh.
    + rewrite lookup_app_r in Hh by (by apply lookup_ge_None).
      destruct (h - length (functions σ)) as [|k]; simpl in Hh;
        by destruct Hh as [Hh|Hh].
Qed.

Lemma get_handlers_once e' hs' σ :
  wrapper_in w e hs σ → w ∈ get_handlers (once e' hs' σ).1 e → w ∈ get_handlers σ e.
Proof using Type.
  intros [Hw _]. destruct hs' as [|h' hs']; [done|].
  unfold once, _once_wrapper, new_function. rewrite get_handlers_on.
  case_decide; [|done]. unfold get_handlers at 1. simpl.
  intros [Hin|Hin%list_elem_of_singleton]%elem_of_app; [done|].
  apply lookup_lt_Some in Hw. lia.
Qed.
Lemma harmless_on e' hs' σ : no_on w (COn e' hs') → harmless w e hs σ (on e' hs' σ).1.
Proof using Type.
  intros Hno Hin. destruct (on_frame e' hs' σ) as [Hf Ht].
  split; [by eapply wrapper_in_same|]. split; [done|].
  rewrite get_handlers_on. case_decide; [|done].
  by intros [?|?]%elem_of_app.
Qed.

Lemma harmless_off e' hs' σ : harmless w e hs σ (off e' hs' σ).1.
Proof using Type.
  intros Hin. destruct (off_frame e' hs' σ) as [Hf Ht].
  split; [by eapply wrapper_in_same|]. split; [done|]. apply off_subset.
Qed.

Lemma harmless_once e' hs' σ : harmless w e hs σ (once e' hs' σ).1.
Proof using Type.
  intros Hin. split; [by apply wrapper_in_once|].
  split; [apply once_trace|]. by apply get_handlers_once.
Qed.

Lemma spent_harmless c σ σ' : harmless w e hs σ σ' → spent w e hs c σ → spent w e hs c σ'.
Proof using Type.
  intros Hh (Hin & Hw & Hc). destruct (Hh Hin) as (Hin' & Ht & Hsub).
  split; [done|]. split; [by intros ?%Hsub|]. by rewrite Ht.
Qed.

Lemma at_most_once_harmless σ σ' :
  harmless w e hs σ σ' → at_most_once w e hs σ → at_most_once w e hs σ'.
Proof using Type.
  intros Hh (Hin & Hc). destruct (Hh Hin) as (Hin' & Ht & Hsub).
  split; [done|]. rewrite Ht. destruct Hc as [Hc|[Hw Hc]]; [by left|right].
  split; [by intros ?%Hsub|done].
Qed.

Lemma spent_record c ev σ :
  calls_by w [ev] = [] → spent w e hs c σ → spent w e hs c (record ev σ).
Proof using Type.
  intros Hev (Hin & Hw & Hc). split; [by eapply wrapper_in_same|].
  split; [done|]. by rewrite calls_by_record, Hev, app_nil_r.
Qed.

Lemma at_most_once_record ev σ :
  calls_by w [ev] = [] → at_most_once w e hs σ → at_most_once w e hs (record ev σ).
Proof using Type.
  intros Hev (Hin & Hc). split; [by eapply wrapper_in_same|].
  by rewrite calls_by_record, Hev, app_nil_r.
Qed.

Lemma calls_by_other d w' h args kw :
  w' ≠ w → calls_by w [Wrapped d w' h args kw] = [].
Proof using Type. intros Hne. simpl. by rewrite decide_False. Qed.

(** Once the wrapper is unregistered, nothing a call does makes it
    call a handler again: its own [off] raises before it gets there. *)
Lemma call_spent c fuel d aw h args kw σ :
  spent w e hs c σ → spent w e hs c (call fuel d aw h args kw σ).1.
Proof using e_named.
  intros Hσ.
  apply (J_call_fuel (spent w e hs c) (λ _, True) (no_on w)); try done.
  - intros e' hs' σ' Hno. apply spent_harmless. by apply harmless_on.
  - intros e' hs' σ' _. apply spent_harmless, harmless_off.
  - intros e' hs' σ' _. apply spent_harmless, harmless_once.
  - intros. by apply spent_record.
  - intros. by apply spent_record.
  - intros. by apply spent_record.
  - intros σ' h' body [[_ Hnr] _] Hh. by apply (Hnr h').
  - intros n IH d' w' e' hs' args' kw' σ' _ Hσ' Hw'.
    destruct (decide (w' = w)) as [->|Hne].
    + pose proof Hσ' as ([Hw _] & Hnot & _).
      assert (e' = e) as -> by congruence.
      destruct (off_self_absent e w σ' e_named Hnot) as [H1 H2].
      destruct (off (Some e) [w] σ') as [σ1 [v|x|]]; simpl in *; by subst.
    + pose proof (spent_harmless c _ _ (harmless_off (Some e') [w'] σ') Hσ') as Hoff.
      destruct (off (Some e') [w'] σ') as [σ1 [v|x|]]; simpl in *; try done.
      apply (J_wrapped_handlers (spent w e hs c) (λ _, True)); auto.
      intros h0 σ0. apply spent_record. by apply calls_by_other.
Qed.

(** The wrapper's loop over its handlers, started with the wrapper
    unregistered: the calls it has made remain a prefix of [hs]. *)
Lemma wrapped_handlers_spent fuel d args kw rest done σ :
  done ++ rest = hs → spent w e hs done σ →
  ∃ c, spent w e hs c (wrapped_handlers (call fuel) d w rest args kw σ).1 ∧
       c `prefix_of` hs.
Proof using e_named.
  revert done σ. induction rest as [|h rest IH]; intros done σ Hhs Hσ.
  { exists done. split; [done|]. exists []. by rewrite <- Hhs. }
  simpl.
  assert (spent w e hs (done ++ [h]) (record (Wrapped d w h args kw) σ)) as Hrec.
  { destruct Hσ as (Hin & Hw & Hc). split; [by eapply wrapper_in_same|].
    split; [done|]. rewrite calls_by_record, Hc. simpl. by rewrite decide_True. }
  pose proof (call_spent _ fuel (S d) false h args kw _ Hrec) as Hcall.
  assert ((done ++ [h]) ++ rest = hs) as Hhs' by (by rewrite <- (assoc_L (++))).
  destruct (call fuel (S d) false h args kw _) as [σ2 [v|x|]]; simpl in *.
  - by apply (IH (done ++ [h])).
  - exists (done ++ [h]). split; [done|]. exists rest. by rewrite Hhs'.
  - exists (done ++ [h]). split; [done|]. exists rest. by rewrite Hhs'.
Qed.

(** Whatever a call does, the wrapper goes through its handlers at
    most once. *)
Lemma call_at_most_once fuel d aw h args kw σ :
  at_most_once w e hs σ → at_most_once w e hs (call fuel d aw h args kw σ).1.
Proof using e_named.
  intros Hσ.
  apply (J_call_fuel (at_most_once w e hs) (λ _, True) (no_on w)); try done.
  - intros e' hs' σ' Hno. apply at_most_once_harmless. by apply harmless_on.
  - intros e' hs' σ' _. apply at_most_once_harmless, harmless_off.
  - intros e' hs' σ' _. apply at_most_once_harmless, harmless_once.
  - intros. by apply at_most_once_record.
  - intros. by apply at_most_once_record.
  - intros. by apply at_most_once_record.
  - intros σ' h' body [[_ Hnr] _] Hh. by apply (Hnr h').
  - intros n IH d' w' e' hs' args' kw' σ' _ Hσ' Hw'.
    pose proof (at_most_once_harmless _ _ (harmless_off (Some e') [w'] σ') Hσ') as Hoff.
    destruct (decide (w' = w)) as [->|Hne].
    + assert (e' = e ∧ hs' = hs) as [-> ->].
      { destruct Hσ' as [[Hw _] _]. split; congruence. }
      pose proof (off_self_present e w σ' e_named) as Hpresent.
      destruct (off_frame (Some e) [w] σ') as [_ Ht].
      destruct (off (Some e) [w] σ') as [σ1 [v|x|]]; simpl in *; try done.
      destruct (Hpresent eq_refl) as [Hwas Hnow].
      assert (spent w e hs [] σ1) as Hspent.
      { destruct Hoff as [Hin _]. split; [done|]. split; [done|].
        rewrite Ht. by destruct Hσ' as [_ [?|[? _]]]. }
      destruct (wrapped_handlers_spent n d' args' kw' hs [] σ1 eq_refl Hspent)
        as (c & (Hin & Hw & Hc) & Hpre).
      split; [done|]. right. by rewrite Hc.
    + destruct (off (Some e') [w'] σ') as [σ1 [v|x|]]; simpl in *; try done.
      apply (J_wrapped_handlers (at_most_once w e hs) (λ _, True)); auto.
      intros h0 σ0. apply at_most_once_record. by apply calls_by_other.
Qed.

Lemma run_at_most_once fuel prog σ :
  Forall (no_on w) prog → at_most_once w e hs σ → at_most_once w e hs (run fuel prog σ).1.
Proof using e_named.
  intros Hprog Hσ. unfold run.
  apply (J_run_script (at_most_once w e hs) (λ _, True) (no_on w)); try done.
  - intros e' hs' σ' Hno. apply at_most_once_harmless. by apply harmless_on.
  - intros e' hs' σ' _. apply at_most_once_harmless, harmless_off.
  - intros e' hs' σ' _. apply at_most_once_harmless, harmless_once.
  - intros. by apply at_most_once_record.
  - intros. by apply at_most_once_record.
  - intros. by apply at_most_once_record.
  - intros. by apply call_at_most_once.
Qed.
End OnceWrapper.

(** ** One-shot handlers *)

Lemma trigger_spent w e hs c fuel d e' args kw σ :
  e ≠ "" → spent w e hs c σ → spent w e hs c (trigger (call fuel) d e' args kw σ).1.
Proof.
  intros He Hσ.
  apply (J_trigger (spent w e hs c) (λ _, True)); try done.
  - intros. by apply spent_record.
  - intros. by apply spent_record.
  - intros. by apply call_spent.
Qed.

Lemma call_wrapper n d aw w e hs args kw σ :
  functions σ !! w = Some (OnceWrapper e hs) →
  call (S n) d aw w args kw σ =
  match off (Some e) [w] σ with
  | (σ1, Ret _) => wrapped_handlers (call n) d w hs args kw σ1
  | (σ1, out) => (σ1, out)
  end.
Proof. intros H. simpl. by rewrite H. Qed.

Lemma once_new_wrapper e hs σ :
  hs ≠ [] →
  (once e hs σ).2 = Ret (RHandler (length (functions σ))) ∧
  functions (once e hs σ).1 = functions σ ++ [OnceWrapper e hs] ∧
  get_handlers (once e hs σ).1 e = get_handlers σ e ++ [length (functions σ)].
Proof.
  intros Hne. destruct hs as [|h hs]; [done|].
  change (once e (h :: hs) σ) with
    (on e [length (functions σ)]
       (World (_events σ) (functions σ ++ [OnceWrapper e (h :: hs)]) (trace σ)
          (loop_running σ))).
  split; [|split].
  - unfold on, _on_wrapper. by destruct (getitem _ e).
  - by destruct (on_frame e [length (functions σ)]
      (World (_events σ) (functions σ ++ [OnceWrapper e (h :: hs)]) (trace σ)
         (loop_running σ))) as [-> _].
  - rewrite get_handlers_on. by rewrite decide_True.
Qed.

Lemma once_wrapper_in e hs σ :
  hs ≠ [] → never_registers (length (functions σ)) σ →
  wrapper_in (length (functions σ)) e hs (once e hs σ).1.
Proof.
  intros Hne Hnr. destruct (once_new_wrapper e hs σ Hne) as (_ & Hf & _).
  split.
  - rewrite Hf, lookup_app_r by done. by rewrite Nat.sub_diag.
  - intros h body Hh. apply (Hnr h). rewrite Hf in Hh.
    destruct (functions σ !! h) as [c|] eqn:Hc.
    + by rewrite (lookup_app_l_Some _ _ _ _ Hc) in Hh.
    + rewrite lookup_app_r in Hh by (by apply lookup_ge_None).
      destruct (h - length (functions σ)) as [|k]; simpl in Hh;
        by destruct Hh as [Hh|Hh].
Qed.

(** The first trigger after [once(e, h)] on an event without other
    handlers: the wrapper unregisters itself and calls [h]. *)
Lemma first_trigger_spent fuel e h args kw σ :
  e ≠ "" → 0 < fuel →
  never_registers (length (functions σ)) σ →
  calls_by (length (functions σ)) (trace σ) = [] →
  get_handlers σ e = [] →
  spent (length (functions σ)) e [h] [h]
    (trigger (call fuel) 0 e args kw (once e [h] σ).1).1.
Proof.
  intros He Hfuel Hnr Hcalls Hnone. set (w := length (functions σ)) in *.
  destruct fuel as [|n]; [lia|].
  destruct (once_new_wrapper e [h] σ) as (_ & Hf & Hget); [done|].
  pose proof (once_wrapper_in e [h] σ) as Hin. fold w in Hin, Hget.
  specialize (Hin ltac:(done) Hnr). rewrite Hnone, app_nil_l in Hget.
  pose proof (once_trace e [h] σ) as Ht.
  set (σ1 := (once e [h] σ).1) in *.
  unfold trigger. rewrite Hget. cbn [trigger_callbacks].
  assert (iscoroutinefunction σ1 w = false) as ->.
  { unfold iscoroutinefunction. by rewrite (proj1 Hin). }
  set (σr := record (Call 0 w args kw) σ1).
  rewrite (call_wrapper n 1 false w e [h]) by apply Hin.
  assert (w ∈ get_handlers σr e) as Hreg.
  { change (get_handlers σr e) with (get_handlers σ1 e). rewrite Hget. by left. }
  destruct (off_one_registered σr e w He Hreg) as (σa & Hoff & Hnot & _).
  assert (functions σa = functions σr ∧ trace σa = trace σr) as [Hfa Hta].
  { change σa with (σa, Ret RNone).1. rewrite <- Hoff. apply off_frame. }
  rewrite Hoff. cbn [wrapped_handlers].
  assert (spent w e [h] [h] (record (Wrapped 1 w h args kw) σa)) as Hrec.
  { split; [eapply wrapper_in_same; [|exact Hin]; simpl; by rewrite Hfa|].
    split.
    - done.
    - rewrite calls_by_record, Hta. unfold σr.
      rewrite calls_by_record, Ht, Hcalls. simpl. by rewrite decide_True. }
  pose proof (call_spent w e [h] He [h] n 2 false h args kw _ Hrec) as Hcall.
  destruct (call n 2 false h args kw _) as [σ2 [v|x|]]; done.
Qed.

(** C5: on the empty event name the wrapper of [once] calls its
    handler twice.  With [once("", h)] registered behind a handler that
    triggers [""] again the first time it runs, a single [trigger("")]
    makes the one wrapper call [h] twice: its [off("", _wrapper)] takes
    the branch [if not event] of l.82, clears the registry and returns,
    where for any other name [off] raises once the wrapper is gone. *)
Lemma once_on_empty_name_calls_twice :
  (once "" [0] before_once).2 = Ret (RHandler 3) ∧
  get_handlers (once "" [0] before_once).1 "" = [2; 3] ∧
  (run 4 [CTrigger "" [] []] (once "" [0] before_once).1).2 = Ret RNone ∧
  calls_by 3 (trace (run 4 [CTrigger "" [] []] (once "" [0] before_once).1).1) = [0; 0] ∧
  ¬ calls_by 3 (trace (run 4 [CTrigger "" [] []] (once "" [0] before_once).1).1)
      `prefix_of` [0].
Proof.
  split; [by vm_compute|]. split; [by vm_compute|]. split; [by vm_compute|].
  assert (calls_by 3 (trace (run 4 [CTrigger "" [] []] (once "" [0] before_once).1).1)
          = [0; 0]) as -> by (by vm_compute).
  split; [done|]. intros [k Hk]. discriminate.
Qed.

(** X21: let [once(e, hs)] be called with a non-empty event name
    [e], and let the wrapper it returns not be handed to [on] afterwards.
    Then, whatever is run next (any number of trigger calls, nested ones
    included), the calls that the wrapper makes to its handlers are, in
    order, a prefix of [hs]: each handler is called at most once per
    registration, the wrapper having unregistered itself before the
    first.  With one handler [h] and no other handler on [e], the first
    trigger of [e] makes the wrapper call [h], and after a second trigger
    [h] has still been called exactly once. *)
Theorem once_calls_handlers_at_most_once fuel σ e hs prog :
  e ≠ "" → hs ≠ [] →
  never_registers (length (functions σ)) σ →
  calls_by (length (functions σ)) (trace σ) = [] →
  Forall (no_on (length (functions σ))) prog →
  let w := length (functions σ) in
  let σ1 := (once e hs σ).1 in
  (once e hs σ).2 = Ret (RHandler w) ∧
  functions σ1 !! w = Some (OnceWrapper e hs) ∧
  get_handlers σ1 e = get_handlers σ e ++ [w] ∧
  calls_by w (trace (run fuel prog σ1).1) `prefix_of` hs ∧
  (∀ h args kw args' kw',
     hs = [h] → get_handlers σ e = [] → 0 < fuel →
     let '(σ2, out2) := trigger (call fuel) 0 e args kw σ1 in
     let '(σ3, out3) := trigger (call fuel) 0 e args' kw' σ2 in
     calls_by w (trace σ2) = [h] ∧ (w ∉ get_handlers σ2 e) ∧
     calls_by w (trace σ3) = [h]).
Proof.
  intros He Hhs Hnr Hcalls Hprog w σ1.
  destruct (once_new_wrapper e hs σ Hhs) as (Hret & Hf & Hget).
  pose proof (once_wrapper_in e hs σ Hhs Hnr) as Hin.
  split; [done|]. split; [apply Hin|]. split; [done|]. split.
  - assert (at_most_once w e hs σ1) as H1.
    { split; [done|]. left. unfold σ1. by rewrite once_trace. }
    destruct (run_at_most_once w e hs He fuel prog σ1 Hprog H1) as [_ [->|[_ ?]]];
      [apply prefix_nil|done].
  - intros h args kw args' kw' -> Hnone Hfuel.
    pose proof (first_trigger_spent fuel e h args kw σ He Hfuel Hnr Hcalls Hnone) as H2.
    fold σ1 w in H2.
    destruct (trigger (call fuel) 0 e args kw σ1) as [σ2 out2].
    pose proof (trigger_spent w e [h] [h] fuel 0 e args' kw' σ2 He H2) as H3.
    destruct (trigger (call fuel) 0 e args' kw' σ2) as [σ3 out3].
    destruct H2 as (_ & ? & ?). by destruct H3 as (_ & _ & ?).
Qed.

Lemma once_calls_handlers_at_most_once_witness :
  calls_by 1 (trace (run 3 [CTrigger "e" [PInt 1] []; CTrigger "e" [PInt 2] []]
                       (once "e" [0] (with_functions [Plain [CTrigger "e" [] []]])).1).1)
  `prefix_of` [0].
Proof.
  apply (once_calls_handlers_at_most_once 3
           (with_functions [Plain [CTrigger "e" [] []]]) "e" [0]
           [CTrigger "e" [PInt 1] []; CTrigger "e" [PInt 2] []]).
  - done.
  - done.
  - intros h body. destruct h as [|h]; simpl.
    + intros [[= <-]|[=]]. by repeat constructor.
    + rewrite lookup_nil. by intros [[=]|[=]].
  - done.
  - by repeat constructor.
Defined.

(** * Further properties of the registry *)

Lemma filter_not_in_cons (h : hid) pre (l : list hid) :
  filter (λ x, x ∉ pre) (filter (.≠ h) l) = filter (λ x, x ∉ h :: pre) l.
Proof.
  induction l as [|y l IHl]; [done|].
  destruct (decide (y = h)) as [->|Hne].
  - rewrite (filter_cons_False _ h) by (intros Hx; by apply Hx).
    rewrite (filter_cons_False _ h) by (intros Hx; apply Hx; left). done.
  - rewrite (filter_cons_True (.≠ h)) by done.
    destruct (decide (y ∈ pre)) as [Hy|Hy].
    + rewrite !filter_cons_False; [done| |]; intros Hx; apply Hx; [by right|done].
    + rewrite !filter_cons_True; [by rewrite IHl| |done].
      intros [?|?]%elem_of_cons; done.
Qed.

Lemma filter_not_in_nil (l : list hid) : filter (λ x, x ∉ []) l = l.
Proof.
  induction l as [|y l IHl]; [done|].
  rewrite filter_cons_True by apply not_elem_of_nil. by rewrite IHl.
Qed.

Lemma off_handlers_all event σ l handlers :
  _events σ !! event = Some l →
  NoDup handlers → (∀ h, h ∈ handlers → h ∈ l) →
  off_handlers event handlers σ =
  (set_events (<[event := filter (λ x, x ∉ handlers) l]> (_events σ)) σ, Ret RNone).
Proof.
  revert σ l. induction handlers as [|h handlers IH]; intros σ l Hl Hnd Hsub.
  - simpl. f_equal. rewrite filter_not_in_nil, insert_id by done.
    by rewrite set_events_same.
  - apply NoDup_cons in Hnd as [Hh Hnd].
    rewrite (off_handlers_present _ _ _ _ l) by (auto; apply Hsub; left).
    rewrite (IH _ (filter (.≠ h) l)); simpl.
    + f_equal. unfold set_events. simpl. f_equal.
      by rewrite insert_insert_eq, filter_not_in_cons.
    + apply lookup_insert_eq.
    + done.
    + intros x Hx. apply list_elem_of_filter. split; [by intros ->|].
      apply Hsub. by right.
Qed.

Lemma off_handlers_sublist event handlers σ e :
  get_handlers (off_handlers event handlers σ).1 e `sublist_of` get_handlers σ e.
Proof.
  revert σ. induction handlers as [|h handlers IH]; intros σ; [done|].
  simpl. destruct (getitem_get (_events σ) event e) as [Hm Hl].
  destruct (getitem_get (_events σ) event event) as [_ Hl'].
  destruct (getitem (_events σ) event) as [m l]. simpl in *.
  case_bool_decide as Hin.
  - etrans; [apply IH|]. unfold get_handlers. simpl.
    destruct (decide (event = e)) as [->|Hne].
    + rewrite lookup_insert_eq. simpl. rewrite remove_while_filter by done.
      rewrite <- Hl'. apply sublist_filter.
    + rewrite lookup_insert_ne by done. by rewrite Hm.
  - unfold get_handlers. simpl. by rewrite Hm.
Qed.

(** X1: [on(e, h, ...)] returns its first handler and appends the
    handlers, in the order given, to the list of [e]; the other events
    are untouched, and a handler is registered for [e] afterwards exactly
    when it was before or is one of those given. *)
Theorem on_appends_in_order σ e h hs :
  (on e (h :: hs) σ).2 = Ret (RHandler h) ∧
  get_handlers (on e (h :: hs) σ).1 e = get_handlers σ e ++ h :: hs ∧
  (∀ e', e' ≠ e → _events (on e (h :: hs) σ).1 !! e' = _events σ !! e') ∧
  (∀ x, is_registered (on e (h :: hs) σ).1 e x = true ↔
        is_registered σ e x = true ∨ x ∈ h :: hs).
Proof.
  split; [|split; [|split]].
  - unfold on, _on_wrapper. by destruct (getitem _ e).
  - rewrite get_handlers_on. by rewrite decide_True.
  - intros e' He'. rewrite on_lookup by done. by rewrite lookup_insert_ne.
  - intros x. unfold is_registered. rewrite !bool_decide_eq_true.
    rewrite get_handlers_on, decide_True by done. apply elem_of_app.
Qed.

(** X2: the decorator form.  [on(e)] with no handler changes nothing
    and returns the decorator; applying the decorator to no handler at
    all raises [IndexError], after it has made [e] a key of the registry
    (with an empty list when [e] was unknown); no list of handlers has
    changed. *)
Theorem on_without_handlers σ e :
  on e [] σ = (σ, Ret (ROnWrapper e)) ∧
  (_on_wrapper e [] σ).2 = Raise IndexError ∧
  _events (_on_wrapper e [] σ).1 !! e = Some (get_handlers σ e) ∧
  (∀ e', get_handlers (_on_wrapper e [] σ).1 e' = get_handlers σ e').
Proof.
  split; [done|]. unfold _on_wrapper, getitem, get_handlers.
  destruct (_events σ !! e) as [l|] eqn:Hl; simpl.
  - rewrite app_nil_r, lookup_insert_eq. repeat split; try done.
    intros e'. destruct (decide (e = e')) as [<-|Hne].
    + by rewrite lookup_insert_eq, Hl.
    + by rewrite lookup_insert_ne.
  - rewrite lookup_insert_eq. repeat split; try done.
    intros e'. destruct (decide (e = e')) as [<-|Hne].
    + by rewrite lookup_insert_eq, Hl.
    + by rewrite !lookup_insert_ne.
Qed.

(** X3: registering [h] for [e] and unregistering it at once succeeds
    and leaves for [e] the list it had without any [h]: the earlier
    registrations of [h] are removed too, and the list is the old one
    only when [h] was not registered before.  [e] is a key afterwards. *)
Theorem on_then_off σ e h :
  e ≠ "" →
  (off (Some e) [h] (on e [h] σ).1).2 = Ret RNone ∧
  get_handlers (off (Some e) [h] (on e [h] σ).1).1 e
    = filter (.≠ h) (get_handlers σ e) ∧
  (h ∉ get_handlers σ e →
   get_handlers (off (Some e) [h] (on e [h] σ).1).1 e = get_handlers σ e) ∧
  is_Some (_events (off (Some e) [h] (on e [h] σ).1).1 !! e).
Proof.
  intros He.
  assert (get_handlers (on e [h] σ).1 e = get_handlers σ e ++ [h]) as Hon.
  { rewrite get_handlers_on. by rewrite decide_True. }
  assert (h ∈ get_handlers (on e [h] σ).1 e) as Hin.
  { rewrite Hon. apply elem_of_app. right. by left. }
  destruct (off_one_registered _ e h He Hin) as (σ' & -> & _ & Hev).
  rewrite Hon, filter_app in Hev.
  rewrite (filter_cons_False _ h) in Hev by (intros Hx; by apply Hx).
  rewrite filter_nil, app_nil_r in Hev. cbn [fst snd].
  assert (get_handlers σ' e = filter (.≠ h) (get_handlers σ e)) as Hget.
  { unfold get_handlers at 1. by rewrite Hev, lookup_insert_eq. }
  split; [done|]. split; [done|]. split.
  - intros Hnot. by rewrite Hget, filter_absent.
  - rewrite Hev, lookup_insert_eq. eauto.
Qed.

Lemma on_then_off_witness :
  get_handlers (off (Some "e") [0] (on "e" [0] (on "e" [0; 1] (with_functions [])).1).1).1 "e"
  = filter (.≠ 0) (get_handlers (on "e" [0; 1] (with_functions [])).1 "e").
Proof.
  apply (on_then_off (on "e" [0; 1] (with_functions [])).1 "e" 0). done.
Defined.

(** X4: [off(e, h1, ..., hn)] with distinct handlers that are all
    registered for the non-empty name [e] returns normally, and leaves
    for [e] its list without any of them, the other handlers keeping
    their order; nothing else changes. *)
Theorem off_removes_the_handlers_given σ e l h hs :
  e ≠ "" → _events σ !! e = Some l →
  NoDup (h :: hs) → (∀ x, x ∈ h :: hs → x ∈ l) →
  off (Some e) (h :: hs) σ =
  (set_events (<[e := filter (λ x, x ∉ h :: hs) l]> (_events σ)) σ, Ret RNone).
Proof.
  intros He Hl Hnd Hsub. rewrite off_named, Hl by done.
  by apply off_handlers_all.
Qed.

Lemma off_removes_the_handlers_given_witness :
  off (Some "e") [2; 0] (on "e" [0; 1; 2; 0; 3] (with_functions [])).1 =
  (World {["e" := [1; 3]]} [] [] false, Ret RNone).
Proof.
  rewrite (off_removes_the_handlers_given _ "e" [0; 1; 2; 0; 3] 2 [0]).
  - by vm_compute.
  - done.
  - by vm_compute.
  - compute_done.
  - intros x [->|[->|[]%elem_of_nil]%elem_of_cons]%elem_of_cons; compute_done.
Defined.

Lemma off_handlers_outcome event handlers σ l :
  _events σ !! event = Some l →
  (is_ret (off_handlers event handlers σ).2 = true →
   NoDup handlers ∧ ∀ x, x ∈ handlers → x ∈ l) ∧
  (∀ x, (off_handlers event handlers σ).2 = Raise x →
        ∃ y, y ∈ handlers ∧ x = HandlerNotFound event y).
Proof.
  revert σ l. induction handlers as [|h handlers IH]; intros σ l Hl.
  { split; [|done]. intros _. split; [constructor|]. by intros x ?%elem_of_nil. }
  destruct (decide (h ∈ l)) as [Hin|Hnot].
  - rewrite (off_handlers_present _ _ _ _ l) by done.
    destruct (IH (set_events (<[event:=filter (.≠ h) l]> (_events σ)) σ)
                 (filter (.≠ h) l)) as [Hret Hraise]; [apply lookup_insert_eq|].
    split.
    + intros [Hnd Hsub]%Hret. split.
      * apply NoDup_cons. split; [|done].
        intros [? _]%Hsub%list_elem_of_filter. done.
      * intros x [->|Hx]%elem_of_cons; [done|].
        by apply Hsub, list_elem_of_filter in Hx as [_ ?].
    + intros x (y & Hy & ->)%Hraise. exists y. split; [by right|done].
  - rewrite (off_handlers_absent _ _ _ _ l) by done. simpl. split; [done|].
    intros x [= <-]. exists h. split; [by left|done].
Qed.

(** X5: the outcome of [off(e, h1, ..., hn)] on a non-empty name.  It
    returns normally exactly when [e] is a key of the registry and the
    handlers given are pairwise distinct and all registered for [e].
    When [e] is not a key it raises [EventNotFound(e)] without looking at
    the handlers and without creating the key; any other failure is
    [HandlerNotFound(e, h)] for one of the handlers given. *)
Theorem off_outcome σ e h hs :
  e ≠ "" →
  (is_ret (off (Some e) (h :: hs) σ).2 = true ↔
   is_Some (_events σ !! e) ∧ NoDup (h :: hs) ∧
   ∀ x, x ∈ h :: hs → x ∈ get_handlers σ e) ∧
  (_events σ !! e = None → off (Some e) (h :: hs) σ = (σ, Raise (EventNotFound e))) ∧
  (∀ x, (off (Some e) (h :: hs) σ).2 = Raise x →
        (x = EventNotFound e ∧ _events σ !! e = None) ∨
        (∃ y, y ∈ h :: hs ∧ x = HandlerNotFound e y ∧ is_Some (_events σ !! e))).
Proof.
  intros He. rewrite off_named by done. unfold get_handlers.
  destruct (_events σ !! e) as [l|] eqn:Hl.
  - destruct (off_handlers_outcome e (h :: hs) σ l Hl) as [Hret Hraise].
    split; [|split; [done|]].
    + split.
      * intros [Hnd Hsub]%Hret. eauto.
      * intros (_ & Hnd & Hsub). by rewrite (off_handlers_all e σ l).
    + intros x (y & Hy & ->)%Hraise. right. eauto.
  - split; [|split; [done|]].
    + split; [done|]. by intros [[? ?] _].
    + intros x [= <-]. by left.
Qed.

Lemma off_outcome_witness :
  off (Some "f") [0; 1] (on "e" [0] (with_functions [])).1 =
  ((on "e" [0] (with_functions [])).1, Raise (EventNotFound "f")).
Proof.
  apply (off_outcome (on "e" [0] (with_functions [])).1 "f" 0 [1]); [done|].
  by vm_compute.
Defined.

(** X6: naming a registered handler twice in one [off] call fails: the
    first mention removes every occurrence of [h], the second finds none
    and raises [HandlerNotFound(e, h)], and [h] stays removed. *)
Theorem off_same_handler_twice σ e l h rest :
  e ≠ "" → _events σ !! e = Some l → h ∈ l →
  off (Some e) (h :: h :: rest) σ =
  (set_events (<[e := filter (.≠ h) l]> (_events σ)) σ,
   Raise (HandlerNotFound e h)).
Proof.
  intros He Hl Hin. rewrite off_named, Hl by done.
  rewrite (off_handlers_present _ _ _ _ l) by done.
  rewrite (off_handlers_absent _ _ _ _ (filter (.≠ h) l)); [done| |].
  - apply lookup_insert_eq.
  - intros [? _]%list_elem_of_filter. done.
Qed.

Lemma off_same_handler_twice_witness :
  off (Some "e") [0; 0] (on "e" [0; 1] (with_functions [])).1 =
  (World {["e" := [1]]} [] [] false, Raise (HandlerNotFound "e" 0)).
Proof.
  rewrite (off_same_handler_twice _ "e" [0; 1] 0 []).
  - by vm_compute.
  - done.
  - by vm_compute.
  - by left.
Defined.

(** X7: [off] registers nothing and reorders nothing: whatever its
    arguments and its outcome, the list of every event afterwards is a
    sublist of the list the event had before. *)
Theorem off_only_removes σ event handlers e :
  get_handlers (off event handlers σ).1 e `sublist_of` get_handlers σ e.
Proof.
  unfold off. destruct (falsy event).
  { unfold get_handlers at 1. simpl. rewrite lookup_empty. apply sublist_nil_l. }
  destruct (_events σ !! default "" event) as [l|] eqn:Hl; [|done].
  destruct handlers as [|h handlers]; [|apply off_handlers_sublist].
  unfold get_handlers. simpl. destruct (decide (default "" event = e)) as [<-|Hne].
  - rewrite lookup_delete_eq. apply sublist_nil_l.
  - by rewrite lookup_delete_ne.
Qed.

(** X8: after [off()], whatever handlers were passed along, the
    observable is as good as new: the registry is empty, nothing is
    registered, every trigger returns [False] without doing anything,
    and [off] on any non-empty name raises [EventNotFound]. *)
Theorem off_all_forgets_everything fuel d σ hs e h args kw hs' :
  (off None hs σ).2 = Ret RNone ∧
  get_all_handlers (off None hs σ).1 = ∅ ∧
  is_registered (off None hs σ).1 e h = false ∧
  trigger (call fuel) d e args kw (off None hs σ).1
    = ((off None hs σ).1, Ret (RBool false)) ∧
  trigger_async (call fuel) d e args kw (off None hs σ).1
    = ((off None hs σ).1, Ret (RBool false)) ∧
  (e ≠ "" →
   off (Some e) hs' (off None hs σ).1 = ((off None hs σ).1, Raise (EventNotFound e))).
Proof.
  assert (get_handlers (off None hs σ).1 e = []) as Hget.
  { unfold get_handlers. simpl. by rewrite lookup_empty. }
  split; [done|]. split; [done|]. split; [by apply is_registered_nil|].
  split; [unfold trigger; by rewrite Hget|].
  split; [unfold trigger_async; by rewrite Hget|].
  intros He. rewrite off_named by done. simpl. by rewrite lookup_empty.
Qed.

(** X9: [once] registers one new function object, its wrapper, at the
    end of the list of [e], and returns the wrapper.  The handlers given
    are not registered by it: for the function objects that existed,
    [is_registered] answers as before, and [off(e, h)] for a wrapped
    handler [h] that was not registered itself raises [HandlerNotFound]. *)
Theorem once_registers_a_wrapper σ e h hs :
  (once e (h :: hs) σ).2 = Ret (RHandler (length (functions σ))) ∧
  functions (once e (h :: hs) σ).1 = functions σ ++ [OnceWrapper e (h :: hs)] ∧
  get_handlers (once e (h :: hs) σ).1 e = get_handlers σ e ++ [length (functions σ)] ∧
  (∀ x, x < length (functions σ) →
        is_registered (once e (h :: hs) σ).1 e x = is_registered σ e x) ∧
  (∀ x, e ≠ "" → x < length (functions σ) → x ∉ get_handlers σ e →
        off (Some e) [x] (once e (h :: hs) σ).1
        = ((once e (h :: hs) σ).1, Raise (HandlerNotFound e x))).
Proof.
  destruct (once_new_wrapper e (h :: hs) σ) as (Hret & Hf & Hget); [done|].
  split; [done|]. split; [done|]. split; [done|]. split.
  - intros x Hx. unfold is_registered. rewrite Hget. apply bool_decide_ext.
    rewrite elem_of_app, list_elem_of_singleton. split; [|by left].
    intros [Hx' | ->]; [done|lia].
  - intros x He Hx Hnot. rewrite off_named by done.
    assert (x ∉ get_handlers (once e (h :: hs) σ).1 e) as Hnot'.
    { rewrite Hget, elem_of_app, list_elem_of_singleton. intros [Hx' | ->]; [done|lia]. }
    assert (∃ l, _events (once e (h :: hs) σ).1 !! e = Some l) as [l Hl].
    { destruct (_events (once e (h :: hs) σ).1 !! e) as [l|] eqn:Hl; [eauto|].
      exfalso. unfold get_handlers at 1 in Hget. rewrite Hl in Hget.
      symmetry in Hget. by apply app_eq_nil in Hget as [_ ?]. }
    rewrite Hl. apply off_handlers_absent with l; [done|].
    unfold get_handlers in Hnot'. by rewrite Hl in Hnot'.
Qed.

(** X18: the dict built by [get_all_handlers] has the keys of the
    registry and for each the handlers of the event, as [get_handlers]
    gives them; an event whose handlers were all removed by [off(e, h)]
    is still listed, with an empty list. *)
Theorem get_all_handlers_copies_the_registry σ :
  get_all_handlers_items σ = get_all_handlers σ ∧
  (∀ e, default [] (get_all_handlers_items σ !! e) = get_handlers σ e) ∧
  (∀ e, e ∈ dom (get_all_handlers_items σ) ↔ is_Some (_events σ !! e)).
Proof.
  assert (get_all_handlers_items σ = _events σ) as Heq.
  { unfold get_all_handlers_items.
    apply (map_fold_weak_ind (λ r m, r = m)); [done|].
    by intros i x m r _ ->. }
  rewrite Heq. split; [done|]. split; [done|]. intros e. apply elem_of_dom.
Qed.

(** * Further properties of dispatch *)

Lemma run_script_registers_only_trace call d body σ :
  Forall registers_only body → trace (run_script call d body σ).1 = trace σ.
Proof.
  intros Hall. revert σ. induction Hall as [|c body Hc Hall IH]; intros σ; [done|].
  destruct c as [e hs|e hs|e hs|e xs kw|e xs kw|x|e h]; try done; simpl.
  - pose proof (on_frame e hs σ) as [_ Ht].
    destruct (on e hs σ) as [σ' [v|x|]]; simpl in *; by rewrite ?IH.
  - pose proof (once_trace e hs σ) as Ht.
    destruct (once e hs σ) as [σ' [v|x|]]; simpl in *; by rewrite ?IH.
  - destruct (is_registered σ e h); [apply IH|done].
Qed.

Lemma call_quiet_trace n d aw h args kw σ :
  quiet σ h → trace (call (S n) d aw h args kw σ).1 = trace σ.
Proof.
  intros (body & [Hh|Hh] & Hbody); simpl; rewrite Hh.
  - by apply run_script_registers_only_trace.
  - destruct aw; [|done]. by apply run_script_registers_only_trace.
Qed.

Lemma quiet_extends σ σ' ws h :
  functions σ' = functions σ ++ ws → quiet σ h → quiet σ' h.
Proof.
  intros Hf (body & Hh & Hbody). exists body. split; [|done].
  rewrite Hf. destruct Hh as [Hh|Hh]; [left|right]; by apply lookup_app_l_Some.
Qed.

(** The loop of [trigger] on handlers that only register: every handler
    is dispatched, and the trace gets the records of the dispatches and
    nothing else. *)
Lemma trigger_callbacks_quiet n d callbacks args kw σ :
  Forall (quiet σ) callbacks →
  Forall (λ h, iscoroutinefunction σ h = false) callbacks →
  (trigger_callbacks (call (S n)) d callbacks args kw σ).2 = Ret (RBool true) ∧
  trace (trigger_callbacks (call (S n)) d callbacks args kw σ).1
    = trace σ ++ map (sync_record d σ args kw) callbacks ∧
  later d σ (trigger_callbacks (call (S n)) d callbacks args kw σ).1.
Proof.
  revert σ. induction callbacks as [|cb rest IH]; intros σ Hq Hplain.
  { split; [done|]. split; [by rewrite app_nil_r|apply later_refl]. }
  apply Forall_cons in Hq as [Hcb Hrest].
  apply Forall_cons in Hplain as [Hco Hplain]. cbn [trigger_callbacks map].
  assert (sync_record d σ args kw cb = Call d cb args kw) as ->.
  { unfold sync_record. by rewrite Hco. }
  rewrite Hco.
  set (σ1 := record (Call d cb args kw) σ).
  assert (later d σ σ1) as H1 by (apply later_record; [done|apply later_refl]).
  assert (quiet σ1 cb) as Hcb1 by done.
  pose proof (call_quiet n (S d) false cb args kw σ1 Hcb1) as Hr2.
  pose proof (call_quiet_trace n (S d) false cb args kw σ1 Hcb1) as Ht2.
  pose proof (call_later (S n) (S d) false cb args kw σ1) as H2.
  destruct (call (S n) (S d) false cb args kw σ1) as [σ2 [v|x|]]; try done.
  simpl in Ht2, H2.
  assert (later d σ σ2) as H12.
  { eapply later_trans; [done|]. eapply later_weaken; [|done]. lia. }
  destruct (IH σ2) as (Hr & Ht & Hl).
  - eapply Forall_impl; [exact Hrest|]. intros h. by apply quiet_later with d.
  - eapply Forall_impl; [exact Hplain|].
    intros h Hh. simpl in Hh. by rewrite (iscoroutinefunction_later _ _ _ _ H12).
  - split; [done|]. split; [|by eapply later_trans].
    rewrite Ht, Ht2. subst σ1. simpl. rewrite <- (assoc_L (++)).
    do 2 f_equal. apply map_ext. intros h.
    apply (sync_record_later _ _ _ _ _ _ _ H12).
Qed.

(** The loop of [_wrapper] on handlers that only register. *)
Lemma wrapped_handlers_quiet n d w handlers args kw σ :
  Forall (quiet σ) handlers →
  (wrapped_handlers (call (S n)) d w handlers args kw σ).2 = Ret RNone ∧
  trace (wrapped_handlers (call (S n)) d w handlers args kw σ).1
    = trace σ ++ map (λ h, Wrapped d w h args kw) handlers.
Proof.
  revert σ. induction handlers as [|h rest IH]; intros σ Hq.
  { split; [done|]. by rewrite app_nil_r. }
  apply Forall_cons in Hq as [Hh Hrest]. cbn [wrapped_handlers map].
  set (σ1 := record (Wrapped d w h args kw) σ).
  assert (quiet σ1 h) as Hh1 by done.
  pose proof (call_quiet n (S d) false h args kw σ1 Hh1) as Hr2.
  pose proof (call_quiet_trace n (S d) false h args kw σ1 Hh1) as Ht2.
  pose proof (call_later (S n) (S d) false h args kw σ1) as H2.
  destruct (call (S n) (S d) false h args kw σ1) as [σ2 [v|x|]]; try done.
  simpl in Ht2, H2. destruct (IH σ2) as (Hr & Ht).
  - eapply Forall_impl; [done|]. intros h' Hh'.
    apply quiet_later with (S d) σ1; [done|]. done.
  - split; [done|]. rewrite Ht, Ht2. unfold σ1. simpl.
    by rewrite <- (assoc_L (++)).
Qed.

(** What a trigger does when the wrapper of a [once] is alone on its
    event: the wrapper is called, unregisters itself, and goes through
    its handlers. *)
Lemma trigger_lone_wrapper n d σ w e hs args kw :
  e ≠ "" → get_handlers σ e = [w] →
  functions σ !! w = Some (OnceWrapper e hs) →
  ∃ σa,
    functions σa = functions σ ∧
    trace σa = trace σ ++ [Call d w args kw] ∧
    _events σa = <[e := []]> (_events σ) ∧
    trigger (call (S n)) d e args kw σ =
      match wrapped_handlers (call n) (S d) w hs args kw σa with
      | (σ', Ret _) => (σ', Ret (RBool true))
      | (σ', out) => (σ', out)
      end ∧
    trigger_async (call (S n)) d e args kw σ = trigger (call (S n)) d e args kw σ.
Proof.
  intros He Hget Hw.
  assert (iscoroutinefunction σ w = false) as Hco.
  { unfold iscoroutinefunction. by rewrite Hw. }
  set (σr := record (Call d w args kw) σ).
  assert (w ∈ get_handlers σr e) as Hreg.
  { change (get_handlers σr e) with (get_handlers σ e). rewrite Hget. by left. }
  destruct (off_one_registered σr e w He Hreg) as (σa & Hoff & _ & Hev).
  assert (functions σa = functions σr ∧ trace σa = trace σr) as [Hfa Hta].
  { change σa with (σa, Ret RNone).1. rewrite <- Hoff. apply off_frame. }
  exists σa. split; [done|]. split; [done|]. split.
  { rewrite Hev. change (get_handlers σr e) with (get_handlers σ e). rewrite Hget.
    rewrite filter_cons_False by (intros Hx; by apply Hx). done. }
  assert (trigger (call (S n)) d e args kw σ =
          match wrapped_handlers (call n) (S d) w hs args kw σa with
          | (σ', Ret _) => (σ', Ret (RBool true))
          | (σ', out) => (σ', out)
          end) as Hsync.
  { unfold trigger. rewrite Hget. cbn [trigger_callbacks]. rewrite Hco.
    fold σr. rewrite (call_wrapper n (S d) false w e hs) by done.
    rewrite Hoff. by destruct (wrapped_handlers _ _ _ _ _ _ _) as [σ' [v|x|]]. }
  split; [done|]. rewrite Hsync.
  unfold trigger_async. rewrite Hget. cbn [trigger_async_callbacks]. rewrite Hco.
  fold σr. rewrite (call_wrapper n (S d) false w e hs) by done.
  rewrite Hoff. by destruct (wrapped_handlers _ _ _ _ _ _ _) as [σ' [v|x|]].
Qed.

(** X10: the wrapper of [once(e, h1, ..., hn)] alone on its event, on
    the first trigger: it is called with the arguments of the trigger and
    calls [h1 .. hn] in that order, each with the same positional and
    keyword arguments; when the handlers only register, nothing else is
    called and the trigger returns [True]. *)
Theorem once_wrapper_forwards_arguments n d σ e h hs args kw :
  e ≠ "" → get_handlers σ e = [] → Forall (quiet σ) (h :: hs) →
  (trigger (call (S (S n))) d e args kw (once e (h :: hs) σ).1).2 = Ret (RBool true) ∧
  trace (trigger (call (S (S n))) d e args kw (once e (h :: hs) σ).1).1
    = trace σ ++ Call d (length (functions σ)) args kw
        :: map (λ x, Wrapped (S d) (length (functions σ)) x args kw) (h :: hs).
Proof.
  intros He Hnone Hq.
  destruct (once_new_wrapper e (h :: hs) σ) as (_ & Hf & Hget); [done|].
  rewrite Hnone, app_nil_l in Hget.
  pose proof (once_trace e (h :: hs) σ) as Ht.
  set (w := length (functions σ)) in *. set (σ1 := (once e (h :: hs) σ).1) in *.
  assert (functions σ1 !! w = Some (OnceWrapper e (h :: hs))) as Hw.
  { rewrite Hf, lookup_app_r by done. unfold w. by rewrite Nat.sub_diag. }
  destruct (trigger_lone_wrapper (S n) d σ1 w e (h :: hs) args kw He Hget Hw)
    as (σa & Hfa & Hta & _ & -> & _).
  destruct (wrapped_handlers_quiet n (S d) w (h :: hs) args kw σa) as [Hr Htr].
  { eapply Forall_impl; [done|]. intros x. apply quiet_extends with [OnceWrapper e (h :: hs)].
    by rewrite Hfa, Hf. }
  destruct (wrapped_handlers (call (S n)) (S d) w (h :: hs) args kw σa)
    as [σ' [v|x|]]; try done.
  split; [done|]. simpl in Htr. cbn [fst].
  by rewrite Htr, Hta, Ht, <- (assoc_L (++)).
Qed.

Lemma once_wrapper_forwards_arguments_witness :
  trace (trigger (call 2) 0 "e" [PInt 1] [("k", PInt 2)]
           (once "e" [0; 1] (with_functions [Plain []; Plain [COn "f" [0]]])).1).1
  = [Call 0 2 [PInt 1] [("k", PInt 2)];
     Wrapped 1 2 0 [PInt 1] [("k", PInt 2)];
     Wrapped 1 2 1 [PInt 1] [("k", PInt 2)]].
Proof.
  apply (once_wrapper_forwards_arguments 0 0
           (with_functions [Plain []; Plain [COn "f" [0]]]) "e" 0 [1]
           [PInt 1] [("k", PInt 2)]).
  - done.
  - by vm_compute.
  - repeat constructor; eexists; (split; [left; reflexivity|]); by repeat constructor.
Defined.

(** X11: a coroutine function registered through [once] never runs.
    The wrapper is an ordinary function, so [trigger_async] calls it
    without awaiting, as [trigger] does; the wrapper calls the coroutine
    function, which only makes a coroutine object that nobody awaits.
    Whatever the body of the coroutine function, the call returns [True],
    the trace holds the call of the wrapper and its call of the function,
    and no event has a handler it did not have before. *)
Theorem once_never_awaits_a_coroutine n d σ e h body args kw :
  e ≠ "" → get_handlers σ e = [] → functions σ !! h = Some (Coroutine body) →
  (trigger_async (call (S (S n))) d e args kw (once e [h] σ).1).2 = Ret (RBool true) ∧
  trace (trigger_async (call (S (S n))) d e args kw (once e [h] σ).1).1
    = trace σ ++ [Call d (length (functions σ)) args kw;
                  Wrapped (S d) (length (functions σ)) h args kw] ∧
  (∀ e', get_handlers (trigger_async (call (S (S n))) d e args kw (once e [h] σ).1).1 e'
         = get_handlers σ e') ∧
  trigger (call (S (S n))) d e args kw (once e [h] σ).1
    = trigger_async (call (S (S n))) d e args kw (once e [h] σ).1.
Proof.
  intros He Hnone Hh.
  destruct (once_new_wrapper e [h] σ) as (_ & Hf & Hget); [done|].
  rewrite Hnone, app_nil_l in Hget.
  pose proof (once_trace e [h] σ) as Ht.
  assert (_events (once e [h] σ).1 = <[e := [length (functions σ)]]> (_events σ)) as Hev1.
  { change (once e [h] σ) with
      (on e [length (functions σ)]
         (World (_events σ) (functions σ ++ [OnceWrapper e [h]]) (trace σ)
            (loop_running σ))).
    rewrite on_lookup by done. unfold get_handlers. simpl.
    unfold get_handlers in Hnone. by rewrite Hnone. }
  set (w := length (functions σ)) in *. set (σ1 := (once e [h] σ).1) in *.
  assert (functions σ1 !! w = Some (OnceWrapper e [h])) as Hw.
  { rewrite Hf, lookup_app_r by done. unfold w. by rewrite Nat.sub_diag. }
  destruct (trigger_lone_wrapper (S n) d σ1 w e [h] args kw He Hget Hw)
    as (σa & Hfa & Hta & Hea & Hsync & Hasync).
  rewrite Hasync, Hsync. cbn [wrapped_handlers].
  assert (call (S n) (S (S d)) false h args kw (record (Wrapped (S d) w h args kw) σa)
          = (record (Wrapped (S d) w h args kw) σa, Ret (RCoroutineObject h))) as ->.
  { simpl. rewrite Hfa, Hf, (lookup_app_l_Some _ _ _ _ Hh). done. }
  cbn [fst snd]. split; [done|]. split; [|split; [|done]].
  - simpl. by rewrite Hta, Ht, <- (assoc_L (++)).
  - intros e'. unfold get_handlers. simpl. rewrite Hea, Hev1, insert_insert_eq.
    destruct (decide (e = e')) as [<-|Hne].
    + rewrite lookup_insert_eq. unfold get_handlers in Hnone. by rewrite Hnone.
    + by rewrite lookup_insert_ne.
Qed.

Lemma once_never_awaits_a_coroutine_witness :
  (trigger_async (call 2) 0 "e" [] []
     (once "e" [0] (with_functions [Coroutine [CRaise (UserError 1)]])).1).2
  = Ret (RBool true).
Proof.
  apply (once_never_awaits_a_coroutine 0 0
    (with_functions [Coroutine [CRaise (UserError 1)]]) "e" 0
    [CRaise (UserError 1)] [] []); [done|by vm_compute|done].
Defined.

Lemma trigger_callbacks_ret callf d callbacks args kw σ v :
  (trigger_callbacks callf d callbacks args kw σ).2 = Ret v → v = RBool true.
Proof.
  revert σ. induction callbacks as [|cb rest IH]; intros σ; simpl.
  { by intros [= <-]. }
  destruct (iscoroutinefunction σ cb).
  - case_bool_decide; [done|]. by destruct (loop_running σ).
  - destruct (callf _ _ _ _ _ _) as [σ' [w|x|]]; simpl; try done. apply IH.
Qed.

(** X12: [trigger] returns [False], and does nothing, exactly when the
    event has no handler at the time of the call (it is unknown, or all
    its handlers were removed); whenever it returns with a handler
    registered, it returns [True], which it does when the handlers are
    ordinary functions that only register. *)
Theorem trigger_returns_whether_handlers fuel d σ e args kw :
  (get_handlers σ e = [] → trigger (call fuel) d e args kw σ = (σ, Ret (RBool false))) ∧
  (∀ v, (trigger (call fuel) d e args kw σ).2 = Ret v →
        v = RBool (bool_decide (get_handlers σ e ≠ []))) ∧
  (0 < fuel → get_handlers σ e ≠ [] → Forall (quiet σ) (get_handlers σ e) →
   Forall (λ h, iscoroutinefunction σ h = false) (get_handlers σ e) →
   (trigger (call fuel) d e args kw σ).2 = Ret (RBool true)).
Proof.
  unfold trigger. destruct (get_handlers σ e) as [|cb rest] eqn:Hs.
  { split; [done|]. split; [by intros v [= <-]|done]. }
  split; [done|]. split.
  - intros v Hv. by rewrite (trigger_callbacks_ret _ _ _ _ _ _ _ Hv).
  - intros Hfuel _ Hq Hkw. destruct fuel as [|n]; [lia|].
    by apply trigger_callbacks_quiet.
Qed.

Lemma filter_all {A} (P : A → Prop) `{!∀ x, Decision (P x)} (l : list A) :
  Forall P l → filter P l = l.
Proof.
  induction 1 as [|x l Hx Hl IH]; [done|]. by rewrite filter_cons_True, IH.
Qed.

(** X13: a handler that raises stops the dispatch.  When the ordinary
    handlers ahead of [h] only register and the body of [h] starts by
    raising [x], [trigger] raises [x]; the handlers ahead and [h] have
    been called, in order, and the handlers registered after [h] have
    not. *)
Theorem trigger_stops_at_failing_handler n d σ e args kw ahead h rest x body :
  get_handlers σ e = ahead ++ h :: rest →
  Forall (quiet σ) ahead →
  Forall (λ a, iscoroutinefunction σ a = false) ahead →
  functions σ !! h = Some (Plain (CRaise x :: body)) →
  (trigger (call (S n)) d e args kw σ).2 = Raise x ∧
  dispatched d σ (trigger (call (S n)) d e args kw σ).1
    = map (λ a, Call d a args kw) (ahead ++ [h]).
Proof.
  intros Hs Hq Hplain Hh. unfold trigger. rewrite Hs.
  destruct (ahead ++ h :: rest) as [|y ys] eqn:Hl; [by destruct ahead|].
  rewrite <- Hl, trigger_callbacks_app.
  destruct (trigger_callbacks_quiet n d ahead args kw σ Hq Hplain)
    as (Hr & Ht & Hlater).
  destruct (trigger_callbacks (call (S n)) d ahead args kw σ) as [σ1 out1].
  simpl in Hr, Ht, Hlater. subst out1. cbn [trigger_callbacks].
  assert (functions σ1 !! h = Some (Plain (CRaise x :: body))) as Hh1.
  { destruct Hlater as [(ws & -> & _) _]. by apply lookup_app_l_Some. }
  assert (iscoroutinefunction σ1 h = false) as ->.
  { unfold iscoroutinefunction. by rewrite Hh1. }
  assert (call (S n) (S d) false h args kw (record (Call d h args kw) σ1)
          = (record (Call d h args kw) σ1, Raise x)) as ->.
  { simpl. by rewrite Hh1. }
  split; [done|]. unfold dispatched, since. simpl. rewrite Ht.
  rewrite <- (assoc_L (++)), drop_app_length, map_app. simpl.
  assert (map (sync_record d σ args kw) ahead = map (λ a, Call d a args kw) ahead) as ->.
  { apply map_ext_in. intros a Ha%list_elem_of_In. unfold sync_record.
    by rewrite (proj1 (Forall_forall _ _) Hplain a Ha). }
  apply filter_all, Forall_app. split; [|by repeat constructor].
  apply Forall_map, Forall_true. done.
Qed.

Lemma trigger_stops_at_failing_handler_witness :
  (trigger (call 1) 0 "e" [] []
     (on "e" [0; 1; 0] (with_functions [Plain []; Plain [CRaise (UserError 7)]])).1).2
  = Raise (UserError 7).
Proof.
  apply (trigger_stops_at_failing_handler 0 0 _ "e" [] [] [0] 1 [0] (UserError 7) []).
  - by vm_compute.
  - repeat constructor. exists []. split; [by left|done].
  - by repeat constructor.
  - done.
Defined.

Lemma on_keeps_loop e hs σ : loop_running (on e hs σ).1 = loop_running σ.
Proof.
  destruct hs; [done|]. unfold on, _on_wrapper, getitem.
  by destruct (_events σ !! e).
Qed.

Lemma off_handlers_keeps_loop e hs σ :
  loop_running (off_handlers e hs σ).1 = loop_running σ.
Proof.
  revert σ. induction hs as [|x hs IH]; intros σ; [done|].
  simpl. destruct (getitem (_events σ) e) as [m l'].
  case_bool_decide; [|done]. by rewrite IH.
Qed.

Lemma off_keeps_loop e hs σ : loop_running (off e hs σ).1 = loop_running σ.
Proof.
  unfold off. destruct (falsy e); [done|].
  destruct (_events σ !! default "" e); [|done].
  destruct hs as [|h hs]; [done|]. apply off_handlers_keeps_loop.
Qed.

Lemma once_keeps_loop e hs σ : loop_running (once e hs σ).1 = loop_running σ.
Proof.
  destruct hs as [|h hs]; [done|].
  change (once e (h :: hs) σ) with
    (on e [length (functions σ)]
       (World (_events σ) (functions σ ++ [OnceWrapper e (h :: hs)]) (trace σ)
          (loop_running σ))).
  by rewrite on_keeps_loop.
Qed.

(** No call starts or stops the event loop. *)
Lemma call_keeps_loop fuel d aw h args kw σ :
  loop_running (call fuel d aw h args kw σ).1 = loop_running σ.
Proof.
  apply (J_call_fuel (λ σ', loop_running σ' = loop_running σ) (λ _, True) (λ _, True));
    try done.
  - intros e hs σ' _ <-. apply on_keeps_loop.
  - intros e hs σ' _ <-. apply off_keeps_loop.
  - intros e hs σ' _ <-. apply once_keeps_loop.
  - intros. by apply Forall_true.
  - intros n IH d' w e hs args' kw' σ' _ Hσ' Hw.
    pose proof (off_keeps_loop (Some e) [w] σ') as Hoff.
    destruct (off (Some e) [w] σ') as [σ1 [v|x|]]; simpl in *; try congruence.
    apply (J_wrapped_handlers (λ σ', loop_running σ' = loop_running σ) (λ _, True));
      auto; congruence.
Qed.

Lemma trigger_callbacks_keeps_loop fuel d callbacks args kw σ :
  loop_running (trigger_callbacks (call fuel) d callbacks args kw σ).1
  = loop_running σ.
Proof.
  apply (J_trigger_callbacks (λ σ', loop_running σ' = loop_running σ) (λ _, True));
    try done.
  intros d' aw h args' kw' σ' _ <-. apply call_keeps_loop.
Qed.

(** X14: [trigger] never returns normally on an event that has a
    coroutine function among its handlers, whatever the arguments.  The
    ordinary handlers ahead of the first coroutine function are called;
    when they return, the call fails at that function: with
    [SyntaxError] if there is a keyword argument, and otherwise at
    l.135, with [RuntimeError] when no event loop is running, and, when
    one is, with [TypeError] once the function was handed to the
    executor with the tuple of the arguments.  The handlers after it are
    never reached. *)
Theorem trigger_fails_on_coroutine_function fuel d σ e args kw ahead a rest :
  get_handlers σ e = ahead ++ a :: rest →
  Forall (λ h, iscoroutinefunction σ h = false) ahead →
  iscoroutinefunction σ a = true →
  is_ret (trigger (call fuel) d e args kw σ).2 = false ∧
  (is_ret (trigger_callbacks (call fuel) d ahead args kw σ).2 = true →
   trigger (call fuel) d e args kw σ =
     if bool_decide (0 < length kw)
     then ((trigger_callbacks (call fuel) d ahead args kw σ).1,
           Raise (SyntaxError named_args_msg))
     else if loop_running σ
     then (record (Submit d a [PTuple args])
             (trigger_callbacks (call fuel) d ahead args kw σ).1, Raise TypeError)
     else ((trigger_callbacks (call fuel) d ahead args kw σ).1, Raise RuntimeError)).
Proof.
  intros Hs Hahead Ha. unfold trigger. rewrite Hs.
  destruct (ahead ++ a :: rest) as [|x xs] eqn:Hl; [by destruct ahead|].
  rewrite <- Hl, trigger_callbacks_app.
  destruct (trigger_callbacks_trace (call fuel) (call_later fuel) d ahead args kw σ)
    as [Hl1 _].
  pose proof (trigger_callbacks_keeps_loop fuel d ahead args kw σ) as Hloop.
  destruct (trigger_callbacks (call fuel) d ahead args kw σ) as [σ1 [v|x'|]];
    simpl in *; try done.
  rewrite (iscoroutinefunction_later _ _ _ _ Hl1), Ha, Hloop.
  case_bool_decide; [done|]. by destruct (loop_running σ).
Qed.

Lemma trigger_fails_on_coroutine_function_witness :
  trigger (call 1) 0 "e" [PInt 1] []
    (in_loop (on "e" [0; 1; 2] (with_functions [Plain []; Coroutine []; Plain []])).1) =
  (World {["e" := [0; 1; 2]]} [Plain []; Coroutine []; Plain []]
     [Call 0 0 [PInt 1] []; Submit 0 1 [PTuple [PInt 1]]] true,
   Raise TypeError).
Proof.
  assert (get_handlers
            (in_loop (on "e" [0; 1; 2]
               (with_functions [Plain []; Coroutine []; Plain []])).1) "e"
          = [0] ++ 1 :: [2]) as Hs by (by vm_compute).
  destruct (trigger_fails_on_coroutine_function 1 0 _ "e" [PInt 1] [] [0] 1 [2] Hs)
    as [_ Heq]; [by repeat constructor|done|].
  rewrite Heq; by vm_compute.
Defined.

Lemma trigger_async_callbacks_plain fuel d callbacks args kw σ :
  Forall (λ h, iscoroutinefunction σ h = false) callbacks →
  trigger_async_callbacks (call fuel) d callbacks args kw σ =
  trigger_callbacks (call fuel) d callbacks args kw σ.
Proof.
  revert σ. induction callbacks as [|cb rest IH]; intros σ Hall; [done|].
  apply Forall_cons in Hall as [Hcb Hrest]. simpl. rewrite Hcb.
  set (σ1 := record (Call d cb args kw) σ).
  pose proof (call_later fuel (S d) false cb args kw σ1) as H2.
  destruct (call fuel (S d) false cb args kw σ1) as [σ2 [v|x|]]; try done.
  apply IH. eapply Forall_impl; [done|]. intros h Hh. simpl in Hh, H2.
  rewrite (iscoroutinefunction_later _ _ _ _ H2). done.
Qed.

(** X15: when no handler of the event is a coroutine function,
    [trigger_async] does exactly what [trigger] does: same calls, same
    final state, same outcome. *)
Theorem trigger_async_is_trigger_without_coroutines fuel d σ e args kw :
  Forall (λ h, iscoroutinefunction σ h = false) (get_handlers σ e) →
  trigger_async (call fuel) d e args kw σ = trigger (call fuel) d e args kw σ.
Proof.
  intros Hall. unfold trigger_async, trigger.
  destruct (get_handlers σ e) as [|cb rest]; [done|].
  by apply trigger_async_callbacks_plain.
Qed.

Lemma trigger_async_is_trigger_without_coroutines_witness :
  trigger_async (call 2) 0 "e" [] [("k", PInt 1)] self_extending =
  trigger (call 2) 0 "e" [] [("k", PInt 1)] self_extending.
Proof.
  apply trigger_async_is_trigger_without_coroutines.
  replace (get_handlers self_extending "e") with [0] by (by vm_compute).
  by repeat constructor.
Defined.

(** X16: a handler that triggers the event it is registered for, alone
    on that event, never lets [trigger] return: whatever the bound on the
    depth of calls, the depth is exhausted. *)
Theorem retriggering_handler_exhausts_depth fuel d σ e h args kw args' kw' :
  get_handlers σ e = [h] →
  functions σ !! h = Some (Plain [CTrigger e args' kw']) →
  (trigger (call fuel) d e args kw σ).2 = OutOfFuel.
Proof.
  revert d σ args kw. induction fuel as [|n IH]; intros d σ args kw Hs Hh.
  - unfold trigger. rewrite Hs. cbn [trigger_callbacks].
    unfold iscoroutinefunction. by rewrite Hh.
  - unfold trigger. rewrite Hs. cbn [trigger_callbacks].
    unfold iscoroutinefunction. rewrite Hh.
    set (σr := record (Call d h args kw) σ).
    assert (call (S n) (S d) false h args kw σr =
            match trigger (call n) (S d) e args' kw' σr with
            | (σ', Ret _) => (σ', Ret RNone)
            | (σ', out) => (σ', out)
            end) as ->.
    { simpl. rewrite Hh. simpl. done. }
    pose proof (IH (S d) σr args' kw' Hs Hh) as Hout.
    destruct (trigger (call n) (S d) e args' kw' σr) as [σ' out].
    simpl in Hout. by subst out.
Qed.

Lemma retriggering_handler_exhausts_depth_witness :
  (trigger (call 50) 0 "e" [] []
     (on "e" [0] (with_functions [Plain [CTrigger "e" [] []]])).1).2 = OutOfFuel.
Proof.
  apply (retriggering_handler_exhausts_depth 50 0 _ "e" 0 [] [] [] []).
  - by vm_compute.
  - done.
Defined.

(** X17: calling the wrapper of a [once] that is no longer registered
    for its (non-empty) event calls none of its handlers and changes
    nothing: its [self.off(event, _wrapper)] raises [HandlerNotFound]
    when the event is still a key of the registry, and [EventNotFound]
    when it is not. *)
Theorem stale_wrapper_raises n d aw σ w e hs args kw :
  e ≠ "" → functions σ !! w = Some (OnceWrapper e hs) → w ∉ get_handlers σ e →
  call (S n) d aw w args kw σ =
  (σ, Raise (match _events σ !! e with
             | Some _ => HandlerNotFound e w
             | None => EventNotFound e
             end)).
Proof.
  intros He Hw Hnot. rewrite (call_wrapper n d aw w e hs) by done.
  rewrite off_named by done. unfold get_handlers in Hnot.
  destruct (_events σ !! e) as [l|] eqn:Hl; [|done].
  by rewrite (off_handlers_absent _ _ _ _ l).
Qed.

Lemma stale_wrapper_raises_witness :
  call 1 1 false 1 [] [] (off (Some "e") [] (once "e" [0] (with_functions [Plain []])).1).1 =
  ((off (Some "e") [] (once "e" [0] (with_functions [Plain []])).1).1,
   Raise (EventNotFound "e")).
Proof.
  rewrite (stale_wrapper_raises 0 1 false _ 1 "e" [0]); [done|done|done|].
  replace (get_handlers _ "e") with (@nil hid) by (by vm_compute).
  apply not_elem_of_nil.
Defined.

Lemma wrapped_handlers_inert n d w handlers args kw ev fs tr lp :
  Forall (λ x, fs !! x = Some (Plain [])) handlers →
  wrapped_handlers (call (S n)) d w handlers args kw (World ev fs tr lp) =
  (World ev fs (tr ++ map (λ x, Wrapped d w x args kw) handlers) lp, Ret RNone).
Proof.
  revert tr. induction handlers as [|h rest IH]; intros tr Hall.
  { simpl. by rewrite app_nil_r. }
  apply Forall_cons in Hall as [Hh Hrest]. cbn [wrapped_handlers].
  assert (call (S n) (S d) false h args kw
            (record (Wrapped d w h args kw) (World ev fs tr lp))
          = (record (Wrapped d w h args kw) (World ev fs tr lp), Ret RNone)) as ->.
  { simpl. by rewrite Hh. }
  unfold record. simpl. rewrite IH by done. by rewrite <- (assoc_L (++)).
Qed.

(** X19: a [once] on the empty event name wipes the registry.  When its
    wrapper is called, [self.off("", _wrapper)] clears every event;
    with handlers that do nothing, the first trigger of [""] returns
    [True] and leaves the registry empty, whatever other events had
    handlers. *)
Theorem once_on_empty_name_clears_registry n d σ h hs args kw :
  get_handlers σ "" = [] →
  Forall (λ x, functions σ !! x = Some (Plain [])) (h :: hs) →
  (trigger (call (S (S n))) d "" args kw (once "" (h :: hs) σ).1).2 = Ret (RBool true) ∧
  _events (trigger (call (S (S n))) d "" args kw (once "" (h :: hs) σ).1).1 = ∅.
Proof.
  intros Hnone Hall.
  destruct (once_new_wrapper "" (h :: hs) σ) as (_ & Hf & Hget); [done|].
  rewrite Hnone, app_nil_l in Hget.
  set (w := length (functions σ)) in *. set (σ1 := (once "" (h :: hs) σ).1) in *.
  assert (functions σ1 !! w = Some (OnceWrapper "" (h :: hs))) as Hw.
  { rewrite Hf, lookup_app_r by done. unfold w. by rewrite Nat.sub_diag. }
  unfold trigger. rewrite Hget. cbn [trigger_callbacks].
  assert (iscoroutinefunction σ1 w = false) as ->.
  { unfold iscoroutinefunction. rewrite Hf, lookup_app_r by done.
    unfold w. by rewrite Nat.sub_diag. }
  rewrite (call_wrapper (S n) (S d) false w "" (h :: hs)) by done.
  change (off (Some "") [w] (record (Call d w args kw) σ1))
    with (World ∅ (functions σ1) (trace σ1 ++ [Call d w args kw]) (loop_running σ1),
          Ret RNone).
  cbv iota beta. rewrite wrapped_handlers_inert; [done|].
  eapply Forall_impl; [done|]. intros x Hx. simpl in Hx.
  rewrite Hf. by apply lookup_app_l_Some.
Qed.

Lemma once_on_empty_name_clears_registry_witness :
  _events (trigger (call 2) 0 "" [] []
             (once "" [0] (on "e" [0] (with_functions [Plain []])).1).1).1 = ∅.
Proof.
  apply (once_on_empty_name_clears_registry 0 0
           (on "e" [0] (with_functions [Plain []])).1 0 [] [] []).
  - by vm_compute.
  - by repeat constructor.
Defined.

(** X20: the failure of a coroutine function surfaces in
    [trigger_async], at its await.  When the first handler of the event
    is a coroutine function whose body starts by raising [x],
    [trigger_async] raises [x] having awaited that handler and nothing
    else.  [trigger] without keyword arguments never runs that body: it
    stops at l.135, with [RuntimeError] when no event loop is running,
    and with [TypeError], the function handed to the executor, when one
    is. *)
Theorem trigger_async_raises_at_await n d σ e h rest x body args kw :
  get_handlers σ e = h :: rest →
  functions σ !! h = Some (Coroutine (CRaise x :: body)) →
  trigger_async (call (S n)) d e args kw σ
    = (record (Await d h args kw) σ, Raise x) ∧
  trigger (call (S n)) d e args [] σ
    = if loop_running σ
      then (record (Submit d h [PTuple args]) σ, Raise TypeError)
      else (σ, Raise RuntimeError).
Proof.
  intros Hs Hh.
  assert (iscoroutinefunction σ h = true) as Hco.
  { unfold iscoroutinefunction. by rewrite Hh. }
  split; [|by apply (trigger_at_coroutine (call (S n)) d σ e h rest)].
  unfold trigger_async. rewrite Hs.
  cbn [trigger_async_callbacks]. rewrite Hco.
  assert (call (S n) (S d) true h args kw (record (Await d h args kw) σ)
          = (record (Await d h args kw) σ, Raise x)) as ->; [|done].
  simpl. by rewrite Hh.
Qed.

Lemma trigger_async_raises_at_await_witness :
  trigger_async (call 1) 0 "e" [] []
    (on "e" [0; 1] (with_functions [Coroutine [CRaise (UserError 3)]; Plain []])).1
  = (record (Await 0 0 [] [])
       (on "e" [0; 1] (with_functions [Coroutine [CRaise (UserError 3)]; Plain []])).1,
     Raise (UserError 3)).
Proof.
  apply (trigger_async_raises_at_await 0 0 _ "e" 0 [1] (UserError 3) [] [] []).
  - by vm_compute.
  - done.
Defined.

(** * The snapshot and the order of dispatch *)

Lemma trigger_callbacks_one_by_one callf d callbacks args kw σ :
  trigger_callbacks callf d callbacks args kw σ =
  one_by_one (dispatch_sync callf d args kw) callbacks σ.
Proof.
  revert σ. induction callbacks as [|h rest IH]; intros σ; [done|].
  simpl. unfold dispatch_sync. destruct (iscoroutinefunction σ h).
  - case_bool_decide; [done|]. by destruct (loop_running σ).
  - destruct (callf _ _ _ _ _ _) as [σ' [v|x|]]; [apply IH|done|done].
Qed.

Lemma trigger_async_callbacks_one_by_one callf d callbacks args kw σ :
  trigger_async_callbacks callf d callbacks args kw σ =
  one_by_one (dispatch_async callf d args kw) callbacks σ.
Proof.
  revert σ. induction callbacks as [|h rest IH]; intros σ; [done|].
  simpl. unfold dispatch_async. destruct (iscoroutinefunction σ h);
    destruct (callf _ _ _ _ _ _) as [σ' [v|x|]]; try done; apply IH.
Qed.

Lemma call_plain n d aw h args kw σ body :
  functions σ !! h = Some (Plain body) →
  call (S n) d aw h args kw σ = run_script (call n) d body σ.
Proof. intros Hh. simpl. by rewrite Hh. Qed.

Lemma call_awaited n d h args kw σ body :
  functions σ !! h = Some (Coroutine body) →
  call (S n) d true h args kw σ = run_script (call n) d body σ.
Proof. intros Hh. simpl. by rewrite Hh. Qed.

Lemma run_single_on callf d e g σ :
  run_script callf d [COn e [g]] σ = ((on e [g] σ).1, Ret RNone).
Proof.
  cbn [run_script run_cmd]. unfold on, _on_wrapper.
  by destruct (getitem (_events σ) e).
Qed.

Lemma since_of_trace σ σ' new : trace σ' = trace σ ++ new → since σ σ' = new.
Proof. intros Ht. unfold since. by rewrite Ht, drop_app_length. Qed.

Lemma not_coroutine_plain σ h body :
  functions σ !! h = Some (Plain body) → iscoroutinefunction σ h = false.
Proof. intros Hh. unfold iscoroutinefunction. by rewrite Hh. Qed.

(** A handler, alone on [e], that registers [g] for [e]: the call that
    runs it dispatches it alone. *)
Lemma trigger_registering_handler n d σ e h g args kw :
  get_handlers σ e = [h] →
  functions σ !! h = Some (Plain [COn e [g]]) →
  trigger (call (S n)) d e args kw σ =
  ((on e [g] (record (Call d h args kw) σ)).1, Ret (RBool true)).
Proof.
  intros Hs Hh. unfold trigger. rewrite Hs. cbn [trigger_callbacks].
  rewrite (not_coroutine_plain _ _ _ Hh).
  rewrite (call_plain n (S d) false h args kw _ [COn e [g]]) by done.
  by rewrite run_single_on.
Qed.

(** The next call finds [g] registered, after the handler. *)
Lemma trigger_registered_handler n d σ e h g args kw :
  get_handlers σ e = [h; g] →
  functions σ !! h = Some (Plain [COn e [g]]) →
  functions σ !! g = Some (Plain []) →
  trigger (call (S n)) d e args kw σ =
  (record (Call d g args kw) (on e [g] (record (Call d h args kw) σ)).1,
   Ret (RBool true)).
Proof.
  intros Hs Hh Hg. unfold trigger. rewrite Hs. cbn [trigger_callbacks].
  rewrite (not_coroutine_plain _ _ _ Hh).
  rewrite (call_plain n (S d) false h args kw _ [COn e [g]]) by done.
  rewrite run_single_on.
  destruct (on_frame e [g] (record (Call d h args kw) σ)) as [Hf _].
  assert (functions (on e [g] (record (Call d h args kw) σ)).1 !! g = Some (Plain []))
    as Hg' by (by rewrite Hf).
  rewrite (not_coroutine_plain _ _ _ Hg').
  by rewrite (call_plain n (S d) false g args kw _ []) by done.
Qed.

(** A handler that unregisters [g], registered after it for [e]: [g] is
    still dispatched by the call under way, and is gone afterwards. *)
Lemma trigger_unregistering_handler n d σ e h g args kw :
  e ≠ "" → h ≠ g → get_handlers σ e = [h; g] →
  functions σ !! h = Some (Plain [COff (Some e) [g]]) →
  functions σ !! g = Some (Plain []) →
  ∃ σ1,
    trigger (call (S n)) d e args kw σ = (σ1, Ret (RBool true)) ∧
    trace σ1 = trace σ ++ [Call d h args kw; Call d g args kw] ∧
    get_handlers σ1 e = [h] ∧ functions σ1 = functions σ.
Proof.
  intros He Hne Hs Hh Hg.
  set (σr := record (Call d h args kw) σ).
  assert (g ∈ get_handlers σr e) as Hin.
  { change (get_handlers σr e) with (get_handlers σ e). rewrite Hs. by right; left. }
  destruct (off_one_registered σr e g He Hin) as (σa & Hoff & _ & Hev).
  assert (functions σa = functions σr ∧ trace σa = trace σr) as [Hfa Hta].
  { change σa with (σa, Ret RNone).1. rewrite <- Hoff. apply off_frame. }
  exists (record (Call d g args kw) σa). split; [|split; [|split]].
  - unfold trigger. rewrite Hs. cbn [trigger_callbacks].
    rewrite (not_coroutine_plain _ _ _ Hh).
    rewrite (call_plain n (S d) false h args kw _ [COff (Some e) [g]]) by done.
    fold σr. cbn [run_script run_cmd]. rewrite Hoff.
    assert (functions σa !! g = Some (Plain [])) as Hg' by (by rewrite Hfa).
    rewrite (not_coroutine_plain _ _ _ Hg').
    by rewrite (call_plain n (S d) false g args kw _ []) by done.
  - simpl. rewrite Hta. simpl. by rewrite <- (assoc_L (++)).
  - unfold get_handlers. simpl. rewrite Hev, lookup_insert_eq. simpl.
    change (get_handlers σr e) with (get_handlers σ e). rewrite Hs.
    rewrite filter_cons_True by done.
    by rewrite filter_cons_False by (intros Hx; by apply Hx).
  - simpl. by rewrite Hfa.
Qed.

(** Once [g] is gone, the handler's [off(e, g)] raises and stops the
    next call. *)
Lemma trigger_unregistering_again n d σ e h g args kw :
  e ≠ "" → h ≠ g → get_handlers σ e = [h] →
  functions σ !! h = Some (Plain [COff (Some e) [g]]) →
  trigger (call (S n)) d e args kw σ =
  (record (Call d h args kw) σ, Raise (HandlerNotFound e g)).
Proof.
  intros He Hne Hs Hh. unfold trigger. rewrite Hs. cbn [trigger_callbacks].
  rewrite (not_coroutine_plain _ _ _ Hh).
  rewrite (call_plain n (S d) false h args kw _ [COff (Some e) [g]]) by done.
  cbn [run_script run_cmd]. rewrite off_named by done.
  change (_events (record (Call d h args kw) σ)) with (_events σ).
  unfold get_handlers in Hs.
  destruct (_events σ !! e) as [l|] eqn:Hl; [|done]. simpl in Hs. subst l.
  rewrite (off_handlers_absent _ _ _ _ [h]); [done|done|].
  intros [->|[]%elem_of_nil]%elem_of_cons. done.
Qed.

Lemma trigger_async_plain fuel d σ e args kw :
  Forall (λ h, iscoroutinefunction σ h = false) (get_handlers σ e) →
  trigger_async (call fuel) d e args kw σ = trigger (call fuel) d e args kw σ.
Proof.
  intros Hall. unfold trigger_async, trigger.
  destruct (get_handlers σ e) as [|cb rest]; [done|].
  revert Hall. generalize (cb :: rest) as l. clear. intros l. revert σ.
  induction l as [|cb rest IH]; intros σ Hall; [done|].
  apply Forall_cons in Hall as [Hcb Hrest]. simpl. rewrite Hcb.
  set (σ1 := record (Call d cb args kw) σ).
  pose proof (call_later fuel (S d) false cb args kw σ1) as H2.
  destruct (call fuel (S d) false cb args kw σ1) as [σ2 [v|x|]]; try done.
  apply IH. eapply Forall_impl; [done|]. intros h Hh. simpl in Hh, H2.
  rewrite (iscoroutinefunction_later _ _ _ _ H2). done.
Qed.

(** C6: the handlers that a call of [trigger] or [trigger_async] on [e]
    dispatches are fixed by the list [e] has when the call begins.
    Whatever calling a handler does, the call is the one-by-one dispatch
    of that list, each handler on the state the one before left; on the
    trace, its own dispatches are those of the list in order (all of
    them when it returns, up to the handler that failed otherwise).  A
    handler that registers [g] for [e] while it runs is still the only
    one the call dispatches, and the next call dispatches [g] after it;
    a handler that unregisters [g], registered after it, does not keep
    [g] from being dispatched by that call, and the next call finds [g]
    gone. *)
Theorem dispatch_follows_snapshot fuel d σ e args kw args' kw' :
  (let '(σ1, out1) := trigger (call fuel) d e args kw σ in
   let '(σ2, out2) := trigger (call fuel) d e args' kw' σ1 in
   dispatched_from (sync_record d σ args kw) (get_handlers σ e) d σ σ1 out1 ∧
   dispatched_from (sync_record d σ1 args' kw') (get_handlers σ1 e) d σ1 σ2 out2) ∧
  (let '(σ1, out1) := trigger_async (call fuel) d e args kw σ in
   let '(σ2, out2) := trigger_async (call fuel) d e args' kw' σ1 in
   dispatched_from (async_record d σ args kw) (get_handlers σ e) d σ σ1 out1 ∧
   dispatched_from (async_record d σ1 args' kw') (get_handlers σ1 e) d σ1 σ2 out2) ∧
  (∀ callf,
     trigger callf d e args kw σ =
     match get_handlers σ e with
     | [] => (σ, Ret (RBool false))
     | snapshot => one_by_one (dispatch_sync callf d args kw) snapshot σ
     end) ∧
  (∀ callf,
     trigger_async callf d e args kw σ =
     match get_handlers σ e with
     | [] => (σ, Ret (RBool false))
     | snapshot => one_by_one (dispatch_async callf d args kw) snapshot σ
     end) ∧
  (∀ h g,
     0 < fuel → get_handlers σ e = [h] →
     functions σ !! h = Some (Plain [COn e [g]]) →
     functions σ !! g = Some (Plain []) →
     let '(σ1, out1) := trigger (call fuel) d e args kw σ in
     let '(σ2, out2) := trigger (call fuel) d e args' kw' σ1 in
     out1 = Ret (RBool true) ∧ since σ σ1 = [Call d h args kw] ∧
     get_handlers σ1 e = [h; g] ∧
     out2 = Ret (RBool true) ∧
     since σ1 σ2 = [Call d h args' kw'; Call d g args' kw'] ∧
     trigger_async (call fuel) d e args kw σ = (σ1, out1) ∧
     trigger_async (call fuel) d e args' kw' σ1 = (σ2, out2)) ∧
  (∀ h g,
     0 < fuel → e ≠ "" → h ≠ g → get_handlers σ e = [h; g] →
     functions σ !! h = Some (Plain [COff (Some e) [g]]) →
     functions σ !! g = Some (Plain []) →
     let '(σ1, out1) := trigger (call fuel) d e args kw σ in
     let '(σ2, out2) := trigger (call fuel) d e args' kw' σ1 in
     out1 = Ret (RBool true) ∧
     since σ σ1 = [Call d h args kw; Call d g args kw] ∧
     get_handlers σ1 e = [h] ∧
     out2 = Raise (HandlerNotFound e g) ∧
     since σ1 σ2 = [Call d h args' kw'] ∧
     trigger_async (call fuel) d e args kw σ = (σ1, out1) ∧
     trigger_async (call fuel) d e args' kw' σ1 = (σ2, out2)).
Proof.
  destruct (dispatched_prefix_of_snapshot fuel d σ e args kw args' kw') as [H1 H2].
  split; [done|]. split; [done|]. split; [|split; [|split]].
  - intros callf. unfold trigger. destruct (get_handlers σ e); [done|].
    apply trigger_callbacks_one_by_one.
  - intros callf. unfold trigger_async. destruct (get_handlers σ e); [done|].
    apply trigger_async_callbacks_one_by_one.
  - intros h g Hfuel Hs Hh Hg. destruct fuel as [|n]; [lia|].
    assert (Forall (λ x, iscoroutinefunction σ x = false) (get_handlers σ e)) as Hp1.
    { rewrite Hs. repeat constructor. by apply not_coroutine_plain with [COn e [g]]. }
    rewrite (trigger_async_plain (S n) d σ e args kw Hp1).
    rewrite (trigger_registering_handler n d σ e h g args kw Hs Hh).
    set (σ1 := (on e [g] (record (Call d h args kw) σ)).1).
    destruct (on_frame e [g] (record (Call d h args kw) σ)) as [Hf1 Ht1].
    fold σ1 in Hf1, Ht1.
    assert (get_handlers σ1 e = [h; g]) as Hs1.
    { unfold σ1. rewrite get_handlers_on, decide_True by done.
      change (get_handlers (record (Call d h args kw) σ) e) with (get_handlers σ e).
      by rewrite Hs. }
    assert (functions σ1 !! h = Some (Plain [COn e [g]])) as Hh1 by (by rewrite Hf1).
    assert (functions σ1 !! g = Some (Plain [])) as Hg1 by (by rewrite Hf1).
    assert (Forall (λ x, iscoroutinefunction σ1 x = false) (get_handlers σ1 e)) as Hp2.
    { rewrite Hs1. repeat constructor; by eapply not_coroutine_plain. }
    rewrite (trigger_async_plain (S n) d σ1 e args' kw' Hp2).
    rewrite (trigger_registered_handler n d σ1 e h g args' kw' Hs1 Hh1 Hg1).
    split; [done|]. split; [by apply since_of_trace|]. split; [done|].
    split; [done|]. split; [|done]. apply since_of_trace.
    destruct (on_frame e [g] (record (Call d h args' kw') σ1)) as [_ Ht2].
    cbn [trace record]. cbn [trace record] in Ht2. rewrite Ht2.
    by rewrite <- (assoc_L (++)).
  - intros h g Hfuel He Hne Hs Hh Hg. destruct fuel as [|n]; [lia|].
    assert (Forall (λ x, iscoroutinefunction σ x = false) (get_handlers σ e)) as Hp1.
    { rewrite Hs. repeat constructor; by eapply not_coroutine_plain. }
    rewrite (trigger_async_plain (S n) d σ e args kw Hp1).
    destruct (trigger_unregistering_handler n d σ e h g args kw He Hne Hs Hh Hg)
      as (σ1 & -> & Ht1 & Hs1 & Hf1).
    assert (functions σ1 !! h = Some (Plain [COff (Some e) [g]])) as Hh1
      by (by rewrite Hf1).
    assert (Forall (λ x, iscoroutinefunction σ1 x = false) (get_handlers σ1 e)) as Hp2.
    { rewrite Hs1. repeat constructor; by eapply not_coroutine_plain. }
    rewrite (trigger_async_plain (S n) d σ1 e args' kw' Hp2).
    rewrite (trigger_unregistering_again n d σ1 e h g args' kw' He Hne Hs1 Hh1).
    split; [done|]. split; [by apply since_of_trace|]. split; [done|].
    split; [done|]. split; [|done]. by apply since_of_trace.
Qed.

Lemma dispatch_follows_snapshot_witness :
  let '(σ1, out1) := trigger (call 2) 0 "e" [] [] self_extending in
  let '(σ2, out2) := trigger (call 2) 0 "e" [] [] σ1 in
  out1 = Ret (RBool true) ∧ since self_extending σ1 = [Call 0 0 [] []] ∧
  get_handlers σ1 "e" = [0; 1] ∧
  out2 = Ret (RBool true) ∧ since σ1 σ2 = [Call 0 0 [] []; Call 0 1 [] []] ∧
  trigger_async (call 2) 0 "e" [] [] self_extending = (σ1, out1) ∧
  trigger_async (call 2) 0 "e" [] [] σ1 = (σ2, out2).
Proof.
  apply (dispatch_follows_snapshot 2 0 self_extending "e" [] [] [] [] ); try done.
  lia.
Defined.

Lemma async_record_same_functions d σ σ' args kw l :
  functions σ' = functions σ →
  map (async_record d σ' args kw) l = map (async_record d σ args kw) l.
Proof.
  intros Hf. apply map_ext. intros h.
  unfold async_record, iscoroutinefunction. by rewrite Hf.
Qed.

(** Handlers that each leave a mark (a handler of their own, registered
    for [f]): the loop of [trigger_async] runs their bodies in the order
    of the list, coroutine functions included. *)
Lemma trigger_async_callbacks_marking n d f mark args kw callbacks σ :
  (∀ h, h ∈ callbacks →
        functions σ !! h = Some (Plain [COn f [mark h]]) ∨
        functions σ !! h = Some (Coroutine [COn f [mark h]])) →
  ∃ σ',
    trigger_async_callbacks (call (S n)) d callbacks args kw σ = (σ', Ret (RBool true)) ∧
    functions σ' = functions σ ∧
    get_handlers σ' f = get_handlers σ f ++ map mark callbacks ∧
    trace σ' = trace σ ++ map (async_record d σ args kw) callbacks.
Proof.
  revert σ. induction callbacks as [|h rest IH]; intros σ Hb.
  { exists σ. simpl. by rewrite !app_nil_r. }
  assert (∀ ev, ∃ σ2,
            σ2 = (on f [mark h] (record ev σ)).1 ∧
            functions σ2 = functions σ ∧
            get_handlers σ2 f = get_handlers σ f ++ [mark h] ∧
            trace σ2 = trace σ ++ [ev]) as Hstep.
  { intros ev. eexists. split; [done|].
    destruct (on_frame f [mark h] (record ev σ)) as [Hf Ht].
    split; [by rewrite Hf|]. split; [|by rewrite Ht].
    by rewrite get_handlers_on, decide_True by done. }
  assert (∀ σ2 ev,
            functions σ2 = functions σ →
            get_handlers σ2 f = get_handlers σ f ++ [mark h] →
            trace σ2 = trace σ ++ [ev] →
            async_record d σ args kw h = ev →
            ∃ σ',
              trigger_async_callbacks (call (S n)) d rest args kw σ2 = (σ', Ret (RBool true)) ∧
              functions σ' = functions σ ∧
              get_handlers σ' f = get_handlers σ f ++ map mark (h :: rest) ∧
              trace σ' = trace σ ++ map (async_record d σ args kw) (h :: rest)) as Hrest.
  { intros σ2 ev Hf2 Hg2 Ht2 Hev.
    destruct (IH σ2) as (σ' & Hrun & Hf' & Hg' & Ht').
    { intros x Hx. rewrite Hf2. apply Hb. by right. }
    exists σ'. split; [done|]. split; [by rewrite Hf', Hf2|].
    split.
    - rewrite Hg', Hg2. simpl. by rewrite <- (assoc_L (++)).
    - rewrite Ht', Ht2, (async_record_same_functions d σ σ2) by done.
      simpl. rewrite Hev. by rewrite <- (assoc_L (++)). }
  destruct (Hb h) as [Hh|Hh]; [by left| |].
  - destruct (Hstep (Call d h args kw)) as (σ2 & Hσ2 & Hf2 & Hg2 & Ht2).
    destruct (Hrest σ2 (Call d h args kw) Hf2 Hg2 Ht2) as (σ' & Hrun & Hrest').
    { unfold async_record, iscoroutinefunction. by rewrite Hh. }
    exists σ'. split; [|done]. cbn [trigger_async_callbacks].
    unfold iscoroutinefunction at 1. rewrite Hh.
    rewrite (call_plain n (S d) false h args kw _ [COn f [mark h]]) by done.
    rewrite run_single_on, <- Hσ2. done.
  - destruct (Hstep (Await d h args kw)) as (σ2 & Hσ2 & Hf2 & Hg2 & Ht2).
    destruct (Hrest σ2 (Await d h args kw) Hf2 Hg2 Ht2) as (σ' & Hrun & Hrest').
    { unfold async_record, iscoroutinefunction. by rewrite Hh. }
    exists σ'. split; [|done]. cbn [trigger_async_callbacks].
    unfold iscoroutinefunction at 1. rewrite Hh.
    rewrite (call_awaited n (S d) h args kw _ [COn f [mark h]]) by done.
    rewrite run_single_on, <- Hσ2. done.
Qed.

(** C8: a call of [trigger_async] is the one-by-one dispatch of the list
    the event has when the call begins, whatever calling a handler does:
    each handler runs on the state the one before it left, a coroutine
    function awaited and an ordinary handler called, and the first one
    that does not return stops the call.  On the trace each dispatch is
    followed by everything its handler did, before the next dispatch;
    the value returned is [True] exactly when the list was not empty, an
    empty list leaving the state as it was.  The effects come in the
    order of the list: when each handler (coroutine function or ordinary
    handler, in any interleaving) registers a mark of its own for an
    event [f], the call returns [True] and [f] has gained the marks in
    the order of the list. *)
Theorem trigger_async_dispatches_in_order fuel d σ e args kw :
  let '(σ', out) := trigger_async (call fuel) d e args kw σ in
  (∃ done segments,
     done `prefix_of` get_handlers σ e ∧ length segments = length done ∧
     trace σ' = trace σ ++ sequence_of (map (async_record d σ args kw) done) segments ∧
     Forall (Forall (λ ev, d < depth_of ev)) segments ∧
     (is_ret out = true → done = get_handlers σ e)) ∧
  (∀ v, out = Ret v → v = RBool (bool_decide (get_handlers σ e ≠ []))) ∧
  (get_handlers σ e = [] → σ' = σ ∧ out = Ret (RBool false)) ∧
  (0 < fuel → get_handlers σ e ≠ [] → Forall (quiet σ) (get_handlers σ e) →
   out = Ret (RBool true)) ∧
  (∀ callf,
     trigger_async callf d e args kw σ =
     match get_handlers σ e with
     | [] => (σ, Ret (RBool false))
     | snapshot => one_by_one (dispatch_async callf d args kw) snapshot σ
     end) ∧
  (∀ f mark,
     0 < fuel → get_handlers σ e ≠ [] →
     (∀ h, h ∈ get_handlers σ e →
           functions σ !! h = Some (Plain [COn f [mark h]]) ∨
           functions σ !! h = Some (Coroutine [COn f [mark h]])) →
     out = Ret (RBool true) ∧
     get_handlers σ' f = get_handlers σ f ++ map mark (get_handlers σ e) ∧
     trace σ' = trace σ ++ map (async_record d σ args kw) (get_handlers σ e)).
Proof.
  pose proof (trigger_async_trace_and_value fuel d σ e args kw) as Hold.
  destruct (trigger_async (call fuel) d e args kw σ) as [σ' out] eqn:Hrun.
  destruct Hold as (H1 & H2 & H3 & H4).
  split; [done|]. split; [done|]. split; [done|]. split; [done|]. split.
  - intros callf. unfold trigger_async. destruct (get_handlers σ e); [done|].
    apply trigger_async_callbacks_one_by_one.
  - intros f mark Hfuel Hne Hb. destruct fuel as [|n]; [lia|].
    destruct (trigger_async_callbacks_marking n d f mark args kw (get_handlers σ e) σ Hb)
      as (σ2 & Hloop & _ & Hg & Ht).
    unfold trigger_async in Hrun.
    destruct (get_handlers σ e) as [|cb rest] eqn:Hs; [done|].
    rewrite Hloop in Hrun. by injection Hrun as <- <-.
Qed.

Lemma trigger_async_dispatches_in_order_witness :
  let '(σ', out) := trigger_async (call 1) 0 "e" [] [] marking in
  out = Ret (RBool true) ∧
  get_handlers σ' "f" = [10; 11; 12] ∧
  trace σ' = [Await 0 0 [] []; Call 0 1 [] []; Await 0 2 [] []].
Proof.
  pose proof (trigger_async_dispatches_in_order 1 0 marking "e" [] []) as H.
  destruct (trigger_async (call 1) 0 "e" [] [] marking) as [σ' out].
  destruct H as (_ & _ & _ & _ & _ & H).
  destruct (H "f" (λ h, 10 + h)) as (Hout & Hg & Ht).
  - lia.
  - by vm_compute.
  - intros h Hh. vm_compute in Hh.
    apply elem_of_cons in Hh as [->|Hh]; [by right|].
    apply elem_of_cons in Hh as [->|Hh]; [by left|].
    apply elem_of_cons in Hh as [->|Hh]; [by right|].
    by apply elem_of_nil in Hh.
  - split; [done|]. split; [by rewrite Hg|by rewrite Ht].
Defined.
